(** * Evidential-combination engine of [app.py]

    A shallow embedding of the computational core of the Lambertz
    evidence calculator: the sequential Bayes update
    ([do_exact_bayes_calculation]), the counter-evidence ("motbevis")
    continuation and the Monte Carlo loop of [enkel_bayes], the star
    network of [bayesian_network_demo] and Dempster's rule of
    [dempster_shafer_demo].

    Numbers.  The program computes with Python floats, that is, IEEE 754
    binary64.  Two embeddings are used.  What does not depend on
    rounding (which values are appended where, which branch raises,
    ranges that rounding preserves, equalities between computations that
    perform the same operations in the same order) is stated over exact
    rationals in canonical form ([Qc]), where [=] is Leibniz equality
    and every definition evaluates.  What rounding decides (a result
    compared with an input, two orders of the same sum) is stated over
    binary64 itself, in [Binary64], on the values the widgets produce.

    Faults.  Python raises [ZeroDivisionError] on [x / 0] and
    [IndexError] on [l[-1]] for an empty list.  Both are kept: every
    function that divides or indexes lives in the [result] monad. *)

From Stdlib Require Import QArith Qcanon List String Ascii Bool Arith Lia Lqa.
From Stdlib Require Import PrimFloat PrimInt63.
Import ListNotations.

Local Open Scope Qc_scope.

(** ** The fragment of the Python runtime the program relies on *)

Module Py.

Inductive fault : Type :=
| ZeroDivisionError
| IndexError.

Inductive result (A : Type) : Type :=
| Ok (a : A)
| Raise (e : fault).

Arguments Ok {A} a.
Arguments Raise {A} e.

Definition bind {A B : Type} (m : result A) (k : A -> result B) : result B :=
  match m with
  | Ok a => k a
  | Raise e => Raise e
  end.

(** [for x in l: st = body(st, x)] with a body that may raise. *)
Fixpoint for_each {S X : Type} (body : S -> X -> result S)
         (l : list X) (st : S) : result S :=
  match l with
  | [] => Ok st
  | x :: l' => bind (body st x) (for_each body l')
  end.

(** [for _ in range(n): st = body(st)]. *)
Fixpoint for_range {S : Type} (body : S -> result S)
         (n : nat) (st : S) : result S :=
  match n with
  | O => Ok st
  | Datatypes.S n' => bind (body st) (for_range body n')
  end.

(** A float literal or an input value [n/d]. *)
Definition lit (n : Z) (d : positive) : Qc := Q2Qc (n # d).

(** [a / b]. *)
Definition truediv (a b : Qc) : result Qc :=
  if Qc_eq_bool b 0 then Raise ZeroDivisionError else Ok (a / b).

(** [a != b] and [a == b]. *)
Definition ne (a b : Qc) : bool := negb (Qc_eq_bool a b).
Definition eq (a b : Qc) : bool := Qc_eq_bool a b.

(** [a >= b] and [a > b]. *)
Definition ge (a b : Qc) : bool := Qle_bool (this b) (this a).
Definition gt (a b : Qc) : bool := negb (Qle_bool (this a) (this b)).

(** [l[-1]]. *)
Definition last_item {A : Type} (l : list A) : result A :=
  match rev l with
  | [] => Raise IndexError
  | x :: _ => Ok x
  end.

(** [l.append(x)], as the new value of [l]. *)
Definition append {A : Type} (l : list A) (x : A) : list A := l ++ [x].

End Py.

Import Py.

Notation "x <- m ;; k" := (Py.bind m (fun x => k))
  (at level 61, m at next level, right associativity).

(** ** The update formula

    The three lines
<<
    numerator = pba * old
    denominator = numerator + pbna*(1 - old)
    new = numerator/denominator if denominator != 0 else 0
>>
    occur, up to the names of the variables, at lines 577-579, 583-585,
    589-591, 628-630, 795-797, 804-806, 859-861, 867-869, 873-875 and
    887-889 of [app.py].  They are embedded once. *)

Definition posterior_update (pba pbna old_posterior : Qc) : result Qc :=
  let numerator := pba * old_posterior in
  let denominator := numerator + pbna * (1 - old_posterior) in
  if ne denominator 0 then truediv numerator denominator else Ok 0.

(** The value the formula denotes, without the fault layer. *)
Definition bayes (pba pbna old_posterior : Qc) : Qc :=
  let numerator := pba * old_posterior in
  let denominator := numerator + pbna * (1 - old_posterior) in
  if Qc_eq_dec denominator 0 then 0 else numerator / denominator.

(** The posterior after a whole list of pairs, and the trace of all
    intermediate posteriors, prior first. *)
Definition bayes_fold (pairs : list (Qc * Qc)) (p : Qc) : Qc :=
  fold_left (fun post '(pba, pbna) => bayes pba pbna post) pairs p.

Fixpoint bayes_steps (pairs : list (Qc * Qc)) (p : Qc) : list Qc :=
  match pairs with
  | [] => []
  | (pba, pbna) :: rest =>
      let q := bayes pba pbna p in q :: bayes_steps rest q
  end.

Definition bayes_trace (pairs : list (Qc * Qc)) (p : Qc) : list Qc :=
  p :: bayes_steps pairs p.

(** The pair that drives each chain of the interval form for an item
    [(mina, maxa, minna, maxna)]. *)
Definition min_pair (b : Qc * Qc * Qc * Qc) : Qc * Qc :=
  let '(mina, maxa, minna, maxna) := b in (mina, minna).

Definition median_pair (b : Qc * Qc * Qc * Qc) : Qc * Qc :=
  let '(mina, maxa, minna, maxna) := b in
  ((mina + maxa) / Py.lit 2 1, (minna + maxna) / Py.lit 2 1).

Definition max_pair (b : Qc * Qc * Qc * Qc) : Qc * Qc :=
  let '(mina, maxa, minna, maxna) := b in (maxa, maxna).

(** ** [do_exact_bayes_calculation] *)

(** The comment column of a row ([kommentar], lines 894-909, and [komm],
    lines 634-641). *)
Inductive kommentar : Type :=
| UtomRimligtTvivel
| TalarStarktForSkuld
| TillrackligaSkalForAtal
| Bevisovervikt
| SannolikaSkalAttMisstanka
| Tveksamt
| Osannolikt
| TalarForOskuld
| BortomRimligtTvivel
| StarktForSkuld
| DelvisForSkuld
| Under50.

Definition kommentar_text (k : kommentar) : string :=
  match k with
  | UtomRimligtTvivel => "Utom rimligt tvivel (>95%)"
  | TalarStarktForSkuld => "Talar starkt för skuld (>80%)"
  | TillrackligaSkalForAtal => "Tillräckliga skäl för åtal (>60%)"
  | Bevisovervikt => "Bevisövervikt(>50%)"
  | SannolikaSkalAttMisstanka => "Sannolika skäl att misstänka (>40%)"
  | Tveksamt => "Tveksamt (>30%)"
  | Osannolikt => "Osannolikt (>20%)"
  | TalarForOskuld => "Talar för oskuld (<20%)"
  | BortomRimligtTvivel => "Bortom rimligt tvivel (>95%)"
  | StarktForSkuld => "Starkt för skuld (>80%)"
  | DelvisForSkuld => "Delvis för skuld (>50%)"
  | Under50 => "Under 50%"
  end.

(** Lines 894-909. *)
Definition step_kommentar (new_post_percent : Qc) : kommentar :=
  if ge new_post_percent (lit 95 1) then UtomRimligtTvivel
  else if ge new_post_percent (lit 80 1) then TalarStarktForSkuld
  else if ge new_post_percent (lit 60 1) then TillrackligaSkalForAtal
  else if ge new_post_percent (lit 50 1) then Bevisovervikt
  else if ge new_post_percent (lit 40 1) then SannolikaSkalAttMisstanka
  else if ge new_post_percent (lit 30 1) then Tveksamt
  else if ge new_post_percent (lit 20 1) then Osannolikt
  else TalarForOskuld.

(** Lines 634-641. *)
Definition motbevis_kommentar (new_p_pct : Qc) : kommentar :=
  if ge new_p_pct (lit 95 1) then BortomRimligtTvivel
  else if ge new_p_pct (lit 80 1) then StarktForSkuld
  else if ge new_p_pct (lit 50 1) then DelvisForSkuld
  else Under50.

(** The first column of a row: the integer [i], or the text
    [f"Motbevis {i_beviscount}"]. *)
Inductive bevis_nr : Type :=
| Bevis (i : nat)
| Motbevis (i_beviscount : nat).

(** One dictionary appended to [row_list].  The numeric columns hold the
    number handed to [format_auto_decimals]; its rendering as text is
    presentation and is not embedded. *)
Record row : Type := mk_row {
  row_bevis : bevis_nr;
  row_pba : Qc;
  row_pbna : Qc;
  row_gammal_post : Qc;
  row_ny_post : Qc;
  row_forandring : Qc;
  row_kommentar : kommentar
}.

(** The local variables of the [use_intervals] branch (lines 851-856). *)
Record interval_state : Type := mk_interval_state {
  min_post_list : list Qc;
  median_post_list : list Qc;
  max_post_list : list Qc;
  current_min : Qc;
  current_median : Qc;
  current_max : Qc
}.

(** Body of the loop at lines 858-876.  The third block computes
    [new_max] and stores it in [current_max]; unlike the two blocks
    before it, it has no [max_post_list.append(new_max)]. *)
Definition interval_body (st : interval_state)
           (b : Qc * Qc * Qc * Qc) : result interval_state :=
  let '(mina, maxa, minna, maxna) := b in
  new_min <- posterior_update mina minna (current_min st) ;;
  let min_post_list' := append (min_post_list st) new_min in
  pba_med <- truediv (mina + maxa) (lit 2 1) ;;
  pbna_med <- truediv (minna + maxna) (lit 2 1) ;;
  new_med <- posterior_update pba_med pbna_med (current_median st) ;;
  let median_post_list' := append (median_post_list st) new_med in
  new_max <- posterior_update maxa maxna (current_max st) ;;
  Ok (mk_interval_state min_post_list' median_post_list' (max_post_list st)
                        new_min new_med new_max).

(** Lines 850-878: the branch [if use_intervals]. *)
Definition do_exact_bayes_calculation_intervals (prior : Qc)
           (bevis_data : list (Qc * Qc * Qc * Qc))
  : result (list Qc * list Qc * list Qc) :=
  st <- for_each interval_body bevis_data
        (mk_interval_state [prior] [prior] [prior] prior prior prior) ;;
  Ok (min_post_list st, median_post_list st, max_post_list st).

(** The local variables of the [else] branch (lines 880-883). *)
Record point_state : Type := mk_point_state {
  row_list : list row;
  posterior_list : list Qc;
  current_posterior : Qc;
  i : nat
}.

(** Body of the loop at lines 884-922. *)
Definition point_body (st : point_state) (b : Qc * Qc) : result point_state :=
  let '(pba, pbna) := b in
  let old_posterior := current_posterior st in
  new_posterior <- posterior_update pba pbna old_posterior ;;
  let delta := (new_posterior - old_posterior) * lit 100 1 in
  let new_post_percent := new_posterior * lit 100 1 in
  let kommentar := step_kommentar new_post_percent in
  let row_list' :=
    append (row_list st)
           (mk_row (Bevis (i st)) (pba * lit 100 1) (pbna * lit 100 1)
                   (old_posterior * lit 100 1) new_post_percent delta
                   kommentar) in
  Ok (mk_point_state row_list' (append (posterior_list st) new_posterior)
                     new_posterior (i st + 1)).

(** Lines 879-924: the branch [else]. *)
Definition do_exact_bayes_calculation_points (prior : Qc)
           (bevis_data : list (Qc * Qc)) : result (list Qc * list row) :=
  st <- for_each point_body bevis_data (mk_point_state [] [prior] prior 1) ;;
  Ok (posterior_list st, row_list st).

(** The argument [bevis_data] is a list of 4-tuples when [use_intervals]
    is set and a list of pairs otherwise (lines 419-485 build it under the
    same flag); the flag is the constructor. *)
Inductive bevis_input : Type :=
| UseIntervals (bevis_data : list (Qc * Qc * Qc * Qc))
| ExactValues (bevis_data : list (Qc * Qc)).

Inductive exact_result : Type :=
| IntervalResult (min_post median_post max_post : list Qc)
| PointResult (posteriors : list Qc) (rows : list row).

Definition do_exact_bayes_calculation (prior : Qc) (input : bevis_input)
  : result exact_result :=
  match input with
  | UseIntervals bevis_data =>
      r <- do_exact_bayes_calculation_intervals prior bevis_data ;;
      let '(mins, meds, maxs) := r in Ok (IntervalResult mins meds maxs)
  | ExactValues bevis_data =>
      r <- do_exact_bayes_calculation_points prior bevis_data ;;
      let '(posts, rows) := r in Ok (PointResult posts rows)
  end.

(** ** [enkel_bayes]: the two buttons *)

(** What a button handler leaves on the page: either its values, or an
    [st.error] message after which nothing is computed. *)
Inductive st_error : Type :=
| IntervallLageMasteVaraAktiverat
| SummanKanEjOverstiga1
| TotalKonflikt.

Definition st_error_text (e : st_error) : string :=
  match e with
  | IntervallLageMasteVaraAktiverat =>
      "Intervall-läge måste vara aktiverat för Monte Carlo."
  | SummanKanEjOverstiga1 => "Summan kan ej överstiga 1. Justera värdena."
  | TotalKonflikt => "Total konflikt => K=0, kan ej kombineras."
  end.

Inductive page (A : Type) : Type :=
| Shown (a : A)
| Error (e : st_error).

Arguments Shown {A} a.
Arguments Error {A} e.

(** Body of the loop at lines 575-592, on
    [(current_min, current_median, current_max)]. *)
Definition motbevis_interval_body (cur : Qc * Qc * Qc) (nb : Qc * Qc)
  : result (Qc * Qc * Qc) :=
  let '(cur_min, cur_median, cur_max) := cur in
  let '(nbga, nbgna) := nb in
  new_min <- posterior_update nbga nbgna cur_min ;;
  new_med <- posterior_update nbga nbgna cur_median ;;
  new_max <- posterior_update nbga nbgna cur_max ;;
  Ok (new_min, new_med, new_max).

(** Lines 569-604.  The three lists are those returned by
    [do_exact_bayes_calculation]; the three [append] calls stand after
    the loop, not in it.  The last component is [final_in_pct]. *)
Definition motbevis_intervals (res : list Qc * list Qc * list Qc)
           (negative_bevis_data : list (Qc * Qc))
  : result (list Qc * list Qc * list Qc * Qc) :=
  let '(mins, meds, maxs) := res in
  cur_min <- last_item mins ;;
  cur_median <- last_item meds ;;
  cur_max <- last_item maxs ;;
  cur <- for_each motbevis_interval_body negative_bevis_data
         (cur_min, cur_median, cur_max) ;;
  let '(cur_min, cur_median, cur_max) := cur in
  Ok (append mins cur_min, append meds cur_median, append maxs cur_max,
      cur_median * lit 100 1).

(** The variables the loop at lines 625-653 updates. *)
Record motbevis_state : Type := mk_motbevis_state {
  mb_current_post : Qc;
  mb_row_list_final : list row;
  mb_posterior_list : list Qc;
  mb_i_beviscount : nat
}.

(** Body of the loop at lines 625-653. *)
Definition motbevis_point_body (st : motbevis_state) (nb : Qc * Qc)
  : result motbevis_state :=
  let '(nbga, nbgna) := nb in
  let i_beviscount := (mb_i_beviscount st + 1)%nat in
  let old := mb_current_post st in
  new_p <- posterior_update nbga nbgna old ;;
  let delta := (new_p - old) * lit 100 1 in
  let new_p_pct := new_p * lit 100 1 in
  let komm := motbevis_kommentar new_p_pct in
  let rows :=
    append (mb_row_list_final st)
           (mk_row (Motbevis i_beviscount) (nbga * lit 100 1)
                   (nbgna * lit 100 1) (old * lit 100 1) new_p_pct delta
                   komm) in
  Ok (mk_motbevis_state new_p rows (append (mb_posterior_list st) new_p)
                        i_beviscount).

(** Lines 620-661.  The last component is [final_post]. *)
Definition motbevis_points (res : list Qc * list row)
           (negative_bevis_data : list (Qc * Qc))
  : result (list Qc * list row * Qc) :=
  let '(posts, rows) := res in
  current_post <- last_item posts ;;
  st <- for_each motbevis_point_body negative_bevis_data
        (mk_motbevis_state current_post rows posts (List.length rows)) ;;
  final <- last_item (mb_posterior_list st) ;;
  Ok (mb_posterior_list st, mb_row_list_final st, final * lit 100 1).

(** What "Beräkna Bayes (Exakt)" shows, and the value it stores in
    [st.session_state["final_in_pct"]] ([None]: left as it was). *)
Record exakt_page : Type := mk_exakt_page {
  exakt_result : exact_result;
  final_in_pct : option Qc
}.

(** Lines 559-700.  [negative_bevis_data] holds [negative_count] pairs
    (lines 487-518), so [negative_count > 0] is [length _ > 0]. *)
Definition berakna_bayes_exakt (prior : Qc) (input : bevis_input)
           (enable_negative_evidence : bool)
           (negative_bevis_data : list (Qc * Qc)) : result exakt_page :=
  let negative_count := List.length negative_bevis_data in
  match input with
  | UseIntervals bevis_data =>
      res <- do_exact_bayes_calculation_intervals prior bevis_data ;;
      if enable_negative_evidence && (0 <? negative_count)%nat then
        r <- motbevis_intervals res negative_bevis_data ;;
        let '(mins, meds, maxs, final) := r in
        Ok (mk_exakt_page (IntervalResult mins meds maxs) (Some final))
      else
        let '(mins, meds, maxs) := res in
        Ok (mk_exakt_page (IntervalResult mins meds maxs) None)
  | ExactValues bevis_data =>
      res <- do_exact_bayes_calculation_points prior bevis_data ;;
      if enable_negative_evidence && (0 <? negative_count)%nat then
        r <- motbevis_points res negative_bevis_data ;;
        let '(posts, rows, final) := r in
        Ok (mk_exakt_page (PointResult posts rows) (Some final))
      else
        let '(posts, rows) := res in
        final <- last_item posts ;;
        Ok (mk_exakt_page (PointResult posts rows) (Some (final * lit 100 1)))
  end.

(** The counter-evidence the handlers apply: all of it when the
    checkbox is ticked, none otherwise. *)
Definition applied_motbevis (enable_negative_evidence : bool)
           (negative_bevis_data : list (Qc * Qc)) : list (Qc * Qc) :=
  if enable_negative_evidence then negative_bevis_data else [].

(** *** Monte Carlo (lines 784-807)

    [random.uniform(a, b)] is [a + (b - a) * random()] in CPython.  The
    generator behind [random()] is left open: any state type and any
    function producing the next draw. *)
Section MonteCarlo.

Variable rng : Type.
Variable random : rng -> Qc * rng.

Definition uniform (a b : Qc) (g : rng) : Qc * rng :=
  let '(u, g') := random g in (a + (b - a) * u, g').

(** Lines 792-797, on [post] and the generator. *)
Definition sample_body (st : Qc * rng) (b : Qc * Qc * Qc * Qc)
  : result (Qc * rng) :=
  let '(post, g) := st in
  let '(mina, maxa, minna, maxna) := b in
  let '(pba, g) := uniform mina maxa g in
  let '(pbna, g) := uniform minna maxna g in
  post' <- posterior_update pba pbna post ;;
  Ok (post', g).

(** The pairs [(pba, pbna)] one trial draws for the items of
    [bevis_data], in order, and the generator afterwards. *)
Fixpoint draws (bevis_data : list (Qc * Qc * Qc * Qc)) (g : rng)
  : list (Qc * Qc) * rng :=
  match bevis_data with
  | [] => ([], g)
  | (mina, maxa, minna, maxna) :: rest =>
      let '(pba, g) := uniform mina maxa g in
      let '(pbna, g) := uniform minna maxna g in
      let '(pairs, g) := draws rest g in
      ((pba, pbna) :: pairs, g)
  end.

(** The value one trial appends to [results] when it starts with
    generator [g]: the recurrence over the drawn pairs, then over the
    counter-evidence, as a percentage. *)
Definition trial_sample (prior : Qc)
           (bevis_data : list (Qc * Qc * Qc * Qc))
           (enable_negative_evidence : bool)
           (negative_bevis_data : list (Qc * Qc)) (g : rng) : Qc :=
  bayes_fold (fst (draws bevis_data g)
                ++ applied_motbevis enable_negative_evidence
                                    negative_bevis_data) prior
  * lit 100 1.

(** Lines 799-806. *)
Definition sample_motbevis_body (post : Qc) (nb : Qc * Qc) : result Qc :=
  let '(nbga, nbgna) := nb in
  let pba_neg := nbga in
  let pbna_neg := nbgna in
  posterior_update pba_neg pbna_neg post.

(** Lines 791-807: one round of [for _ in range(n_samples)], on
    [results] and the generator. *)
Definition trial_body (prior : Qc) (bevis_data : list (Qc * Qc * Qc * Qc))
           (enable_negative_evidence : bool)
           (negative_bevis_data : list (Qc * Qc))
           (st : list Qc * rng) : result (list Qc * rng) :=
  let '(results, g) := st in
  r <- for_each sample_body bevis_data (prior, g) ;;
  let '(post, g) := r in
  post <- (if enable_negative_evidence
              && (0 <? List.length negative_bevis_data)%nat
           then for_each sample_motbevis_body negative_bevis_data post
           else Ok post) ;;
  Ok (append results (post * lit 100 1), g).

Definition n_samples : nat := 1000.

(** Lines 784-807.  The summary statistics and charts that follow are
    computed by numpy and altair from [results] and are not embedded. *)
Definition monte_carlo_simulering (prior : Qc) (input : bevis_input)
           (enable_negative_evidence : bool)
           (negative_bevis_data : list (Qc * Qc)) (g : rng)
  : result (page (list Qc) * rng) :=
  match input with
  | ExactValues _ => Ok (Error IntervallLageMasteVaraAktiverat, g)
  | UseIntervals bevis_data =>
      r <- for_range (trial_body prior bevis_data enable_negative_evidence
                                 negative_bevis_data) n_samples ([], g) ;;
      let '(results, g) := r in Ok (Shown results, g)
  end.

End MonteCarlo.

(** ** [bayesian_network_demo] (lines 947 and 1001-1015)

    [p_s_true] and the pairs of [bevis_bn] are the widget values already
    divided by 100 (lines 946 and 999). *)
Definition bayesian_network_demo (p_s_true : Qc) (bevis_bn : list (Qc * Qc))
  : result Qc :=
  let p_s_false := 1 - p_s_true in
  let product_if_s :=
    fold_left (fun acc '(pb_s, pb_ns) => acc * pb_s) bevis_bn 1 in
  let top := p_s_true * product_if_s in
  let product_if_ns :=
    fold_left (fun acc '(pb_s, pb_ns) => acc * pb_ns) bevis_bn 1 in
  let bottom := top + p_s_false * product_if_ns in
  if eq bottom 0 then Ok 0 else truediv top bottom.

(** ** [dempster_shafer_demo] (lines 1034-1062) *)

Record dempster : Type := mk_dempster {
  m_skyldig : Qc;
  m_oskuld : Qc;
  m_okand : Qc;
  conflict : Qc;
  K : Qc
}.

Definition dempster_shafer_demo (bA_skuld bA_oskuld bB_skuld bB_oskuld : Qc)
  : result (page dempster) :=
  if gt (bA_skuld + bA_oskuld) 1 then Ok (Error SummanKanEjOverstiga1) else
  let bA_okand := 1 - (bA_skuld + bA_oskuld) in
  if gt (bB_skuld + bB_oskuld) 1 then Ok (Error SummanKanEjOverstiga1) else
  let bB_okand := 1 - (bB_skuld + bB_oskuld) in
  let conflict := bA_skuld * bB_oskuld + bA_oskuld * bB_skuld in
  let K := 1 - conflict in
  if eq K 0 then Ok (Error TotalKonflikt) else
  let m_skyldig_num :=
    bA_skuld * bB_skuld + bA_skuld * bB_okand + bA_okand * bB_skuld in
  m_skyldig <- truediv m_skyldig_num K ;;
  let m_oskuld_num :=
    bA_oskuld * bB_oskuld + bA_oskuld * bB_okand + bA_okand * bB_oskuld in
  m_oskuld <- truediv m_oskuld_num K ;;
  let m_okand := 1 - (m_skyldig + m_oskuld) in
  Ok (Shown (mk_dempster m_skyldig m_oskuld m_okand conflict K)).

(** ** Reading a displayed percentage

    A percentage quoted with two decimals, such as 90.56, stands for
    every value that rounds to it: those within half a unit of the last
    digit shown. *)
Definition shown_as (two_decimals value : Qc) : Prop :=
  two_decimals - lit 5 1000 <= value /\ value < two_decimals + lit 5 1000.

(** A degenerate interval item: both intervals are single points. *)
Definition degenerate (b : Qc * Qc * Qc * Qc) : Prop :=
  let '(mina, maxa, minna, maxna) := b in mina = maxa /\ minna = maxna.

(** ** [interpret_probability_in_words] (lines 75-96) *)

Inductive bedomning : Type :=
| StalltButomRimligt
| KlartOvervagandeSkal
| IHuvudsakStyrkt
| CirkaHalften
| TveksamtIOrd
| OsannoliktIOrd
| PraktisktTagetIngenChans
| MycketNaraOmojligt.

Definition bedomning_text (b : bedomning) : string :=
  match b with
  | StalltButomRimligt => "Ställt butom rimligt"
  | KlartOvervagandeSkal => "Klart övervägande skäl"
  | IHuvudsakStyrkt => "I huvudsak styrkt"
  | CirkaHalften => "Cirka hälften / liten övervikt"
  | TveksamtIOrd => "Tveksamt"
  | OsannoliktIOrd => "Osannolikt"
  | PraktisktTagetIngenChans => "Praktiskt taget ingen chans"
  | MycketNaraOmojligt => "Mycket nära omöjligt"
  end.

Definition interpret_probability_in_words (pct : Qc) : bedomning :=
  if ge pct (lit 95 1) then StalltButomRimligt
  else if ge pct (lit 80 1) then KlartOvervagandeSkal
  else if ge pct (lit 60 1) then IHuvudsakStyrkt
  else if ge pct (lit 50 1) then CirkaHalften
  else if ge pct (lit 40 1) then TveksamtIOrd
  else if ge pct (lit 20 1) then OsannoliktIOrd
  else if ge pct (lit 1 1) then PraktisktTagetIngenChans
  else MycketNaraOmojligt.

(** The place of a verdict in the chain of tests, counted from the
    last branch. *)
Definition bedomning_rank (b : bedomning) : nat :=
  match b with
  | StalltButomRimligt => 7
  | KlartOvervagandeSkal => 6
  | IHuvudsakStyrkt => 5
  | CirkaHalften => 4
  | TveksamtIOrd => 3
  | OsannoliktIOrd => 2
  | PraktisktTagetIngenChans => 1
  | MycketNaraOmojligt => 0
  end.

(** Lines 1017-1020 of [bayesian_network_demo]: the percentage shown and
    its verdict. *)
Definition bayesian_network_bedomning (p_s_true : Qc)
           (bevis_bn : list (Qc * Qc)) : result (Qc * bedomning) :=
  posterior_bn <- bayesian_network_demo p_s_true bevis_bn ;;
  let post_pct := posterior_bn * lit 100 1 in
  let fromtext := interpret_probability_in_words post_pct in
  Ok (post_pct, fromtext).

(** ** [format_auto_decimals] (lines 58-70) *)

(** [s.rstrip(c)] for a single character [c]. *)
Fixpoint rstrip (c : ascii) (s : string) : string :=
  match s with
  | EmptyString => EmptyString
  | String a rest =>
      match rstrip c rest with
      | EmptyString => if Ascii.eqb a c then EmptyString
                       else String a EmptyString
      | kept => String a kept
      end
  end.

(** The text Python produces for [f"{x:.{max_decimals}f}"] belongs to
    the runtime; it is a parameter of the function. *)
Section Formatting.

Variable format_f : Qc -> nat -> string.

Definition format_auto_decimals (x : Qc) (max_decimals : nat) : string :=
  let s := format_f x max_decimals in
  let s := rstrip "." (rstrip "0" s) in
  if (s =? "")%string || (s =? "-")%string then "0"%string else s.

End Formatting.

(** The last character of a text, and [n] copies of a character. *)
Fixpoint last_char (s : string) : option ascii :=
  match s with
  | EmptyString => None
  | String a EmptyString => Some a
  | String _ rest => last_char rest
  end.

Fixpoint copies (n : nat) (c : ascii) : string :=
  match n with
  | O => EmptyString
  | S n' => String c (copies n' c)
  end.

(** ** Input domains

    The number widgets bound every probability to [0, 100] per cent, and
    the values reach the core divided by 100. *)
Definition probability (x : Qc) : Prop := 0 <= x /\ x <= 1.

Definition probability_pair (b : Qc * Qc) : Prop :=
  probability (fst b) /\ probability (snd b).

Definition probability_item (b : Qc * Qc * Qc * Qc) : Prop :=
  let '(mina, maxa, minna, maxna) := b in
  probability mina /\ probability maxa
  /\ probability minna /\ probability maxna.

(** The rows a loop of the point form appends: [label] numbers them
    from [i] on and [komm] chooses the comment. *)
Fixpoint table_rows (label : nat -> bevis_nr) (komm : Qc -> kommentar)
         (i : nat) (pairs : list (Qc * Qc)) (p : Qc) : list row :=
  match pairs with
  | [] => []
  | (pba, pbna) :: rest =>
      let q := bayes pba pbna p in
      mk_row (label i) (pba * lit 100 1) (pbna * lit 100 1) (p * lit 100 1)
             (q * lit 100 1) ((q - p) * lit 100 1) (komm (q * lit 100 1))
      :: table_rows label komm (i + 1) rest q
  end.

(** The products of the star network. *)
Definition product_if_s (bevis_bn : list (Qc * Qc)) : Qc :=
  fold_left (fun acc '(pb_s, pb_ns) => acc * pb_s) bevis_bn 1.

Definition product_if_ns (bevis_bn : list (Qc * Qc)) : Qc :=
  fold_left (fun acc '(pb_s, pb_ns) => acc * pb_ns) bevis_bn 1.

(** ** The same arithmetic in binary64

    Where rounding decides a statement, the arithmetic is embedded a
    second time over IEEE 754 binary64, the format of a Python float:
    the same operations in the same order on primitive floats. *)

Module Binary64.

Local Open Scope float_scope.

(** [a / b] on floats: Python raises on a zero divisor, of either
    sign. *)
Definition truediv (a b : float) : result float :=
  if b =? 0 then Raise ZeroDivisionError else Ok (a / b).

(** The update formula, as at lines 887-889. *)
Definition posterior_update (pba pbna old_posterior : float) : result float :=
  let numerator := pba * old_posterior in
  let denominator := numerator + pbna * (1 - old_posterior) in
  if negb (denominator =? 0) then truediv numerator denominator else Ok 0.

Record dempster : Type := mk_dempster {
  m_skyldig : float;
  m_oskuld : float;
  m_okand : float;
  conflict : float;
  K : float
}.

(** [dempster_shafer_demo], lines 1034-1062. *)
Definition dempster_shafer_demo (bA_skuld bA_oskuld bB_skuld bB_oskuld : float)
  : result (page dempster) :=
  if 1 <? bA_skuld + bA_oskuld then Ok (Error SummanKanEjOverstiga1) else
  let bA_okand := 1 - (bA_skuld + bA_oskuld) in
  if 1 <? bB_skuld + bB_oskuld then Ok (Error SummanKanEjOverstiga1) else
  let bB_okand := 1 - (bB_skuld + bB_oskuld) in
  let conflict := bA_skuld * bB_oskuld + bA_oskuld * bB_skuld in
  let K := 1 - conflict in
  if K =? 0 then Ok (Error TotalKonflikt) else
  let m_skyldig_num :=
    bA_skuld * bB_skuld + bA_skuld * bB_okand + bA_okand * bB_skuld in
  m_skyldig <- truediv m_skyldig_num K ;;
  let m_oskuld_num :=
    bA_oskuld * bB_oskuld + bA_oskuld * bB_okand + bA_okand * bB_oskuld in
  m_oskuld <- truediv m_oskuld_num K ;;
  let m_okand := 1 - (m_skyldig + m_oskuld) in
  Ok (Shown (mk_dempster m_skyldig m_oskuld m_okand conflict K)).

(** The float [k / 100.0]: a whole percentage as the number widgets
    hand it to the core (lines 364, 484, 518), and the value of a slider
    with step 0.01. *)
Fixpoint int_of_nat (k : nat) : int :=
  match k with
  | O => 0%uint63
  | S k' => PrimInt63.add (int_of_nat k') 1%uint63
  end.

Definition hundredth (k : nat) : float := of_uint63 (int_of_nat k) / 100.

(** The whole percentages 0, 0.01, ..., 1, each with its index. *)
Definition whole_percents : list (nat * float) :=
  map (fun k => (k, hundredth k)) (seq 0 101).


(** [x] and [y] differ by at most 2^-51. *)
Definition within_rounding (x y : float) : bool :=
  abs (x - y) <=? 0x1p-51.


(** What is checked of the two orders of a combination: both stop with
    the same error, or both show a result with the same conflict, the
    same K and masses that differ by at most 2^-51. *)
Definition orders_agree (ab ba : result (page dempster)) : bool :=
  match ab, ba with
  | Ok (Error TotalKonflikt), Ok (Error TotalKonflikt) => true
  | Ok (Shown d), Ok (Shown d') =>
      (conflict d =? conflict d') && (K d =? K d')
      && within_rounding (m_skyldig d) (m_skyldig d')
      && within_rounding (m_oskuld d) (m_oskuld d')
      && within_rounding (m_okand d) (m_okand d')
  | _, _ => false
  end.

(** The pairs (guilt, innocence) a source's two sliders can show
    without the sum error: multiples of 0.01 with sum at most 1. *)
Definition slider_pairs : list (float * float) :=
  flat_map (fun i => map (fun j => (hundredth i, hundredth j))
                         (seq 0 (101 - i)))
           (seq 0 101).

(** The check of both orders for two sources, each comparison made in
    both directions. *)
Definition both_orders_agree (A B : float * float) : bool :=
  let ab := dempster_shafer_demo (fst A) (snd A) (fst B) (snd B) in
  let ba := dempster_shafer_demo (fst B) (snd B) (fst A) (snd A) in
  orders_agree ab ba && orders_agree ba ab.

(** [f x y] for every element [x] of a list and every [y] at or after
    it. *)
Fixpoint forall_unordered {X : Type} (f : X -> X -> bool) (l : list X)
  : bool :=
  match l with
  | [] => true
  | x :: t => forallb (f x) l && forall_unordered f t
  end.

End Binary64.

(** * Properties *)

(** Equality of results that contain concrete rationals: descend through
    the constructors and compare the rationals by evaluation. *)
Ltac canon :=
  lazymatch goal with
  | |- @Logic.eq Qc _ _ => apply Qc_is_canon; vm_compute; reflexivity
  | |- _ => first [reflexivity | f_equal; canon]
  end.

Ltac qc_order :=
  unfold Qcle, Qclt; vm_compute;
  first [ reflexivity
        | discriminate
        | let H := fresh in intro H; apply H; reflexivity ].

(** ** Comparisons and the fault layer *)

Lemma eq_spec (a b : Qc) : reflect (a = b) (eq a b).
Proof.
  unfold eq, Qc_eq_bool. destruct (Qc_eq_dec a b); constructor; assumption.
Qed.

Lemma ne_spec (a b : Qc) : reflect (a <> b) (ne a b).
Proof.
  unfold ne, Qc_eq_bool.
  destruct (Qc_eq_dec a b); constructor; [tauto | assumption].
Qed.

Lemma ge_true (a b : Qc) : ge a b = true <-> b <= a.
Proof. unfold ge, Qcle. apply Qle_bool_iff. Qed.

Lemma gt_true (a b : Qc) : gt a b = true <-> b < a.
Proof.
  unfold gt. rewrite negb_true_iff, <- not_true_iff_false, Qle_bool_iff.
  split; intro H.
  - apply Qcnot_le_lt. exact H.
  - apply Qclt_not_le. exact H.
Qed.

Lemma gt_false (a b : Qc) : gt a b = false <-> a <= b.
Proof.
  unfold gt. rewrite negb_false_iff. apply Qle_bool_iff.
Qed.

Lemma truediv_ok (a b : Qc) : b <> 0 -> truediv a b = Ok (a / b).
Proof.
  intro Hb. unfold truediv, Qc_eq_bool.
  destruct (Qc_eq_dec b 0); [contradiction | reflexivity].
Qed.

Lemma last_item_app {A : Type} (l : list A) (x : A) :
  last_item (l ++ [x]) = Ok x.
Proof. unfold last_item. rewrite rev_app_distr. reflexivity. Qed.

Lemma last_item_cons {A : Type} (x : A) (l : list A) :
  last_item (x :: l) = Ok (last l x).
Proof.
  revert x. induction l as [|y l IH] using rev_ind; intro x.
  - reflexivity.
  - change (x :: l ++ [y]) with ((x :: l) ++ [y]).
    rewrite last_item_app, last_last. reflexivity.
Qed.

(** ** The update formula never faults *)

Lemma posterior_update_bayes (pba pbna old : Qc) :
  posterior_update pba pbna old = Ok (bayes pba pbna old).
Proof.
  unfold posterior_update, bayes; cbv zeta.
  destruct (ne_spec (pba * old + pbna * (1 - old)) 0) as [Hne | Heq];
    destruct (Qc_eq_dec (pba * old + pbna * (1 - old)) 0) as [E | E];
    try contradiction.
  - apply truediv_ok. assumption.
  - reflexivity.
Qed.

Lemma bayes_zero_denominator (pba pbna old : Qc) :
  pba * old + pbna * (1 - old) = 0 -> bayes pba pbna old = 0.
Proof.
  intro H. unfold bayes; cbv zeta.
  destruct (Qc_eq_dec _ 0); [reflexivity | contradiction].
Qed.

Lemma bayes_nonzero_denominator (pba pbna old : Qc) :
  pba * old + pbna * (1 - old) <> 0 ->
  bayes pba pbna old = pba * old / (pba * old + pbna * (1 - old)).
Proof.
  intro H. unfold bayes; cbv zeta.
  destruct (Qc_eq_dec _ 0); [contradiction | reflexivity].
Qed.

Lemma bayes_at_zero (pba pbna : Qc) : bayes pba pbna 0 = 0.
Proof.
  unfold bayes; cbv zeta.
  destruct (Qc_eq_dec _ 0) as [E | E]; [reflexivity |].
  replace (pba * 0) with 0 by ring.
  unfold Qcdiv. ring.
Qed.

(** ** Traces *)

Lemma bayes_steps_length (pairs : list (Qc * Qc)) (p : Qc) :
  List.length (bayes_steps pairs p) = List.length pairs.
Proof.
  revert p. induction pairs as [|[a b] rest IH]; intro p; simpl.
  - reflexivity.
  - now rewrite IH.
Qed.

Lemma bayes_trace_length (pairs : list (Qc * Qc)) (p : Qc) :
  List.length (bayes_trace pairs p) = S (List.length pairs).
Proof. unfold bayes_trace. simpl. now rewrite bayes_steps_length. Qed.

Lemma bayes_steps_app (xs ys : list (Qc * Qc)) (p : Qc) :
  bayes_steps (xs ++ ys) p
  = bayes_steps xs p ++ bayes_steps ys (bayes_fold xs p).
Proof.
  revert p. induction xs as [|[a b] rest IH]; intro p; simpl.
  - reflexivity.
  - now rewrite IH.
Qed.

Lemma bayes_fold_app (xs ys : list (Qc * Qc)) (p : Qc) :
  bayes_fold (xs ++ ys) p = bayes_fold ys (bayes_fold xs p).
Proof. unfold bayes_fold. apply fold_left_app. Qed.

Lemma bayes_steps_last (pairs : list (Qc * Qc)) (p : Qc) :
  last (bayes_steps pairs p) p = bayes_fold pairs p.
Proof.
  induction pairs as [|[a b] rest _] using rev_ind.
  - reflexivity.
  - rewrite bayes_steps_app, bayes_fold_app. simpl.
    apply last_last.
Qed.

Lemma bayes_trace_last (pairs : list (Qc * Qc)) (p : Qc) :
  last_item (bayes_trace pairs p) = Ok (bayes_fold pairs p).
Proof.
  unfold bayes_trace. rewrite last_item_cons, bayes_steps_last. reflexivity.
Qed.

Lemma bayes_fold_zero (pairs : list (Qc * Qc)) : bayes_fold pairs 0 = 0.
Proof.
  induction pairs as [|[a b] rest IH]; [reflexivity |].
  unfold bayes_fold in *. simpl. rewrite bayes_at_zero. exact IH.
Qed.

Lemma bayes_steps_zero (pairs : list (Qc * Qc)) :
  bayes_steps pairs 0 = repeat 0 (List.length pairs).
Proof.
  induction pairs as [|[a b] rest IH]; [reflexivity |].
  simpl. rewrite bayes_at_zero, IH. reflexivity.
Qed.

(** ** The loops of [do_exact_bayes_calculation] *)

Lemma two_nonzero : lit 2 1 <> 0.
Proof. intro H. apply (f_equal this) in H. discriminate H. Qed.

Lemma interval_body_ok (st : interval_state) (mina maxa minna maxna : Qc) :
  interval_body st (mina, maxa, minna, maxna)
  = Ok (let new_min := bayes mina minna (current_min st) in
        let new_med :=
          bayes ((mina + maxa) / lit 2 1) ((minna + maxna) / lit 2 1)
                (current_median st) in
        let new_max := bayes maxa maxna (current_max st) in
        mk_interval_state (min_post_list st ++ [new_min])
                          (median_post_list st ++ [new_med])
                          (max_post_list st)
                          new_min new_med new_max).
Proof.
  unfold interval_body.
  rewrite !posterior_update_bayes, !(truediv_ok _ _ two_nonzero).
  cbn [bind]. rewrite !posterior_update_bayes. reflexivity.
Qed.

Lemma interval_loop (bevis_data : list (Qc * Qc * Qc * Qc)) :
  forall st,
    for_each interval_body bevis_data st
    = Ok (mk_interval_state
            (min_post_list st
               ++ bayes_steps (map min_pair bevis_data) (current_min st))
            (median_post_list st
               ++ bayes_steps (map median_pair bevis_data) (current_median st))
            (max_post_list st)
            (bayes_fold (map min_pair bevis_data) (current_min st))
            (bayes_fold (map median_pair bevis_data) (current_median st))
            (bayes_fold (map max_pair bevis_data) (current_max st))).
Proof.
  induction bevis_data as [|[[[mina maxa] minna] maxna] rest IH];
    intros [mins meds maxs cmin cmed cmax].
  - simpl. now rewrite !app_nil_r.
  - cbn [for_each]. rewrite interval_body_ok. cbn [bind]. cbv zeta.
    rewrite IH.
    cbn [min_post_list median_post_list max_post_list current_min
         current_median current_max map bayes_steps bayes_fold fold_left
         min_pair median_pair max_pair].
    now rewrite <- !app_assoc.
Qed.

Lemma intervals_result (prior : Qc) (bevis_data : list (Qc * Qc * Qc * Qc)) :
  do_exact_bayes_calculation_intervals prior bevis_data
  = Ok (bayes_trace (map min_pair bevis_data) prior,
        bayes_trace (map median_pair bevis_data) prior,
        [prior]).
Proof.
  unfold do_exact_bayes_calculation_intervals.
  rewrite interval_loop. reflexivity.
Qed.

Lemma point_body_ok (st : point_state) (pba pbna : Qc) :
  point_body st (pba, pbna)
  = Ok (let old_posterior := current_posterior st in
        let new_posterior := bayes pba pbna old_posterior in
        mk_point_state
          (row_list st
             ++ [mk_row (Bevis (i st)) (pba * lit 100 1) (pbna * lit 100 1)
                        (old_posterior * lit 100 1)
                        (new_posterior * lit 100 1)
                        ((new_posterior - old_posterior) * lit 100 1)
                        (step_kommentar (new_posterior * lit 100 1))])
          (posterior_list st ++ [new_posterior])
          new_posterior
          (i st + 1)).
Proof.
  unfold point_body. rewrite posterior_update_bayes. reflexivity.
Qed.

Lemma point_loop (bevis_data : list (Qc * Qc)) :
  forall st, exists rows,
    List.length rows = List.length bevis_data /\
    for_each point_body bevis_data st
    = Ok (mk_point_state
            (row_list st ++ rows)
            (posterior_list st ++ bayes_steps bevis_data (current_posterior st))
            (bayes_fold bevis_data (current_posterior st))
            (i st + List.length bevis_data)).
Proof.
  induction bevis_data as [|[pba pbna] rest IH]; intros [rows posts cur n].
  - exists []. simpl. rewrite !app_nil_r, Nat.add_0_r. auto.
  - cbn [for_each]. rewrite point_body_ok. cbn [bind]. cbv zeta.
    match goal with
    | |- context [for_each point_body rest ?s] =>
        destruct (IH s) as (rows' & Hlen & ->)
    end.
    eexists (_ :: rows'). split; [simpl; now rewrite Hlen |].
    cbn [row_list posterior_list current_posterior i bayes_steps bayes_fold
         fold_left List.length].
    rewrite <- !app_assoc. cbn [app]. do 2 f_equal. lia.
Qed.

Lemma points_result (prior : Qc) (bevis_data : list (Qc * Qc)) :
  exists rows,
    List.length rows = List.length bevis_data /\
    do_exact_bayes_calculation_points prior bevis_data
    = Ok (bayes_trace bevis_data prior, rows).
Proof.
  unfold do_exact_bayes_calculation_points.
  destruct (point_loop bevis_data (mk_point_state [] [prior] prior 1))
    as (rows & Hlen & ->).
  exists rows. split; [exact Hlen | reflexivity].
Qed.

(** ** The counter-evidence continuation *)

Lemma last_item_app_cons {A : Type} (init : list A) (x : A) (l : list A) :
  last_item (init ++ x :: l) = Ok (last l x).
Proof.
  induction l as [|y l _] using rev_ind.
  - apply last_item_app.
  - change (init ++ x :: l ++ [y]) with (init ++ (x :: l) ++ [y]).
    rewrite app_assoc, last_item_app, last_last. reflexivity.
Qed.

Lemma last_item_inv {A : Type} (l : list A) (x : A) :
  last_item l = Ok x -> exists init, l = init ++ [x].
Proof.
  destruct l as [|y l] using rev_ind.
  - discriminate.
  - rewrite last_item_app. intros [= ->]. now exists l.
Qed.

Lemma motbevis_interval_loop (negative_bevis_data : list (Qc * Qc)) :
  forall cur_min cur_median cur_max,
    for_each motbevis_interval_body negative_bevis_data
             (cur_min, cur_median, cur_max)
    = Ok (bayes_fold negative_bevis_data cur_min,
          bayes_fold negative_bevis_data cur_median,
          bayes_fold negative_bevis_data cur_max).
Proof.
  induction negative_bevis_data as [|[nbga nbgna] rest IH]; intros a b c.
  - reflexivity.
  - cbn [for_each]. unfold motbevis_interval_body at 1.
    rewrite !posterior_update_bayes. cbn [bind]. apply IH.
Qed.

(** What the continuation does to any three non-empty lists: it reads
    the last element of each, runs the whole counter-evidence list from
    there, and appends the one final value. *)
Lemma motbevis_intervals_result
      (mins meds maxs : list Qc) (a b c : Qc)
      (negative_bevis_data : list (Qc * Qc)) :
  motbevis_intervals (mins ++ [a], meds ++ [b], maxs ++ [c])
                     negative_bevis_data
  = Ok ((mins ++ [a]) ++ [bayes_fold negative_bevis_data a],
        (meds ++ [b]) ++ [bayes_fold negative_bevis_data b],
        (maxs ++ [c]) ++ [bayes_fold negative_bevis_data c],
        bayes_fold negative_bevis_data b * lit 100 1).
Proof.
  unfold motbevis_intervals. rewrite !last_item_app. cbn [bind].
  rewrite motbevis_interval_loop. reflexivity.
Qed.

Lemma motbevis_point_body_ok (st : motbevis_state) (nbga nbgna : Qc) :
  motbevis_point_body st (nbga, nbgna)
  = Ok (let old := mb_current_post st in
        let new_p := bayes nbga nbgna old in
        mk_motbevis_state
          new_p
          (mb_row_list_final st
             ++ [mk_row (Motbevis (mb_i_beviscount st + 1))
                        (nbga * lit 100 1) (nbgna * lit 100 1)
                        (old * lit 100 1) (new_p * lit 100 1)
                        ((new_p - old) * lit 100 1)
                        (motbevis_kommentar (new_p * lit 100 1))])
          (mb_posterior_list st ++ [new_p])
          (mb_i_beviscount st + 1)).
Proof.
  unfold motbevis_point_body. rewrite posterior_update_bayes. reflexivity.
Qed.

Lemma motbevis_point_loop (negative_bevis_data : list (Qc * Qc)) :
  forall st, exists rows,
    List.length rows = List.length negative_bevis_data /\
    for_each motbevis_point_body negative_bevis_data st
    = Ok (mk_motbevis_state
            (bayes_fold negative_bevis_data (mb_current_post st))
            (mb_row_list_final st ++ rows)
            (mb_posterior_list st
               ++ bayes_steps negative_bevis_data (mb_current_post st))
            (mb_i_beviscount st + List.length negative_bevis_data)).
Proof.
  induction negative_bevis_data as [|[nbga nbgna] rest IH];
    intros [cur rows posts n].
  - exists []. simpl. rewrite !app_nil_r, Nat.add_0_r. auto.
  - cbn [for_each]. rewrite motbevis_point_body_ok. cbn [bind]. cbv zeta.
    match goal with
    | |- context [for_each motbevis_point_body rest ?s] =>
        destruct (IH s) as (rows' & Hlen & ->)
    end.
    eexists (_ :: rows'). split; [simpl; now rewrite Hlen |].
    cbn [mb_row_list_final mb_posterior_list mb_current_post
         mb_i_beviscount bayes_steps bayes_fold fold_left List.length].
    rewrite <- !app_assoc. cbn [app]. do 2 f_equal. lia.
Qed.

Lemma motbevis_points_result (init : list Qc) (cur : Qc) (rows : list row)
      (negative_bevis_data : list (Qc * Qc)) :
  exists rows',
    List.length rows' = List.length negative_bevis_data /\
    motbevis_points (init ++ [cur], rows) negative_bevis_data
    = Ok ((init ++ [cur]) ++ bayes_steps negative_bevis_data cur,
          rows ++ rows',
          bayes_fold negative_bevis_data cur * lit 100 1).
Proof.
  unfold motbevis_points. rewrite last_item_app. cbn [bind].
  match goal with
  | |- context [for_each motbevis_point_body _ ?s] =>
      destruct (motbevis_point_loop negative_bevis_data s)
        as (rows' & Hlen & ->)
  end.
  exists rows'. split; [exact Hlen |].
  cbn [bind mb_posterior_list mb_row_list_final mb_current_post].
  rewrite <- app_assoc. cbn [app].
  rewrite last_item_app_cons, bayes_steps_last. reflexivity.
Qed.

Lemma bayes_trace_snoc (pairs : list (Qc * Qc)) (p : Qc) :
  exists init, bayes_trace pairs p = init ++ [bayes_fold pairs p].
Proof.
  apply last_item_inv. apply bayes_trace_last.
Qed.

Lemma exakt_points_result (prior : Qc) (bevis_data : list (Qc * Qc))
      (enable_negative_evidence : bool)
      (negative_bevis_data : list (Qc * Qc)) :
  let all := bevis_data
               ++ applied_motbevis enable_negative_evidence
                                   negative_bevis_data in
  exists rows,
    List.length rows = List.length all /\
    berakna_bayes_exakt prior (ExactValues bevis_data)
                        enable_negative_evidence negative_bevis_data
    = Ok (mk_exakt_page (PointResult (bayes_trace all prior) rows)
                        (Some (bayes_fold all prior * lit 100 1))).
Proof.
  intro all. subst all. unfold berakna_bayes_exakt.
  destruct (points_result prior bevis_data) as (rows & Hlen & ->).
  cbn [bind].
  destruct enable_negative_evidence; cbn [andb applied_motbevis].
  - destruct negative_bevis_data as [|nb rest].
    + cbn [List.length Nat.ltb Nat.leb]. rewrite app_nil_r.
      rewrite bayes_trace_last. cbn [bind]. exists rows. now split.
    + cbn [List.length Nat.ltb Nat.leb].
      destruct (bayes_trace_snoc bevis_data prior) as (init & Hinit).
      rewrite Hinit.
      destruct (motbevis_points_result init (bayes_fold bevis_data prior)
                                       rows (nb :: rest))
        as (rows' & Hlen' & ->).
      cbn [bind]. exists (rows ++ rows'). split.
      * rewrite !length_app. now rewrite Hlen, Hlen'.
      * rewrite <- Hinit. unfold bayes_trace.
        rewrite bayes_steps_app, bayes_fold_app. reflexivity.
  - rewrite app_nil_r, bayes_trace_last. cbn [bind].
    exists rows. now split.
Qed.

Lemma exakt_intervals_result (prior : Qc)
      (bevis_data : list (Qc * Qc * Qc * Qc))
      (nb : Qc * Qc) (rest : list (Qc * Qc)) :
  let neg := nb :: rest in
  berakna_bayes_exakt prior (UseIntervals bevis_data) true neg
  = Ok (mk_exakt_page
          (IntervalResult
             (bayes_trace (map min_pair bevis_data) prior
                ++ [bayes_fold (map min_pair bevis_data ++ neg) prior])
             (bayes_trace (map median_pair bevis_data) prior
                ++ [bayes_fold (map median_pair bevis_data ++ neg) prior])
             [prior; bayes_fold neg prior])
          (Some (bayes_fold (map median_pair bevis_data ++ neg) prior
                 * lit 100 1))).
Proof.
  intro neg. unfold berakna_bayes_exakt.
  rewrite intervals_result. cbn [bind]. subst neg.
  cbn [List.length Nat.ltb Nat.leb andb].
  destruct (bayes_trace_snoc (map min_pair bevis_data) prior) as (i1 & H1).
  destruct (bayes_trace_snoc (map median_pair bevis_data) prior) as (i2 & H2).
  rewrite H1, H2. change [prior] with ([] ++ [prior]).
  rewrite motbevis_intervals_result. cbn [bind].
  rewrite !bayes_fold_app. reflexivity.
Qed.

Lemma exakt_intervals_plain (prior : Qc)
      (bevis_data : list (Qc * Qc * Qc * Qc))
      (enable_negative_evidence : bool)
      (negative_bevis_data : list (Qc * Qc)) :
  applied_motbevis enable_negative_evidence negative_bevis_data = [] ->
  berakna_bayes_exakt prior (UseIntervals bevis_data)
                      enable_negative_evidence negative_bevis_data
  = Ok (mk_exakt_page
          (IntervalResult (bayes_trace (map min_pair bevis_data) prior)
                          (bayes_trace (map median_pair bevis_data) prior)
                          [prior])
          None).
Proof.
  intro H. unfold berakna_bayes_exakt.
  rewrite intervals_result. cbn [bind].
  destruct enable_negative_evidence; cbn [andb]; [| reflexivity].
  cbn [applied_motbevis] in H. subst negative_bevis_data. reflexivity.
Qed.

(** ** The Monte Carlo loop *)

Section MonteCarloFacts.

Variable rng : Type.
Variable random : rng -> Qc * rng.

Lemma uniform_degenerate (a : Qc) (g : rng) :
  uniform rng random a a g = (a, snd (random g)).
Proof.
  unfold uniform. destruct (random g) as [u g']. simpl.
  f_equal. ring.
Qed.

Lemma sample_loop (bevis_data : list (Qc * Qc * Qc * Qc)) :
  forall post g,
    for_each (sample_body rng random) bevis_data (post, g)
    = Ok (bayes_fold (fst (draws rng random bevis_data g)) post,
          snd (draws rng random bevis_data g)).
Proof.
  induction bevis_data as [|[[[mina maxa] minna] maxna] rest IH];
    intros post g.
  - reflexivity.
  - cbn [for_each draws]. unfold sample_body at 1.
    destruct (uniform rng random mina maxa g) as [pba g1].
    destruct (uniform rng random minna maxna g1) as [pbna g2].
    rewrite posterior_update_bayes. cbn [bind]. rewrite IH.
    destruct (draws rng random rest g2) as [pairs g3]. reflexivity.
Qed.

Lemma draws_degenerate (bevis_data : list (Qc * Qc * Qc * Qc)) :
  Forall (fun b => min_pair b = max_pair b) bevis_data ->
  forall g, fst (draws rng random bevis_data g) = map min_pair bevis_data.
Proof.
  induction 1 as [|[[[mina maxa] minna] maxna] rest Hb _ IH]; intro g.
  - reflexivity.
  - cbn [min_pair max_pair] in Hb. injection Hb as <- <-.
    cbn [draws map min_pair]. rewrite !uniform_degenerate.
    specialize (IH (snd (random (snd (random g))))).
    destruct (draws rng random rest _) as [pairs g3].
    cbn [fst] in *. now rewrite IH.
Qed.

Lemma sample_motbevis_loop (negative_bevis_data : list (Qc * Qc)) :
  forall post,
    for_each sample_motbevis_body negative_bevis_data post
    = Ok (bayes_fold negative_bevis_data post).
Proof.
  induction negative_bevis_data as [|[nbga nbgna] rest IH]; intro post.
  - reflexivity.
  - cbn [for_each]. unfold sample_motbevis_body at 1.
    rewrite posterior_update_bayes. cbn [bind]. apply IH.
Qed.

Variable prior : Qc.
Variable bevis_data : list (Qc * Qc * Qc * Qc).
Variable enable_negative_evidence : bool.
Variable negative_bevis_data : list (Qc * Qc).


Lemma trial_body_ok (results : list Qc) (g : rng) :
  trial_body rng random prior bevis_data enable_negative_evidence
             negative_bevis_data (results, g)
  = Ok (results ++ [trial_sample rng random prior bevis_data
                                   enable_negative_evidence
                                   negative_bevis_data g],
        snd (draws rng random bevis_data g)).
Proof.
  unfold trial_body, trial_sample. rewrite sample_loop. cbn [bind].
  rewrite bayes_fold_app.
  destruct enable_negative_evidence; cbn [andb applied_motbevis].
  - destruct negative_bevis_data as [|nb rest].
    + reflexivity.
    + cbn [List.length Nat.ltb Nat.leb].
      rewrite sample_motbevis_loop. reflexivity.
  - reflexivity.
Qed.

(** Any property every single trial's sample has, all collected samples
    have; and [n] rounds collect [n] samples without a fault. *)
Lemma trials_invariant (P : Qc -> Prop) :
  (forall g, P (trial_sample rng random prior bevis_data
                             enable_negative_evidence
                             negative_bevis_data g)) ->
  forall n results g,
    Forall P results ->
    exists results' g',
      for_range (trial_body rng random prior bevis_data
                            enable_negative_evidence negative_bevis_data)
                n (results, g)
      = Ok (results', g')
      /\ List.length results' = (List.length results + n)%nat
      /\ Forall P results'.
Proof.
  intros HP. induction n as [|n IH]; intros results g Hres.
  - exists results, g. cbn [for_range]. rewrite Nat.add_0_r. auto.
  - cbn [for_range]. rewrite trial_body_ok. cbn [bind].
    destruct (IH (results
                   ++ [trial_sample rng random prior bevis_data
                                    enable_negative_evidence
                                    negative_bevis_data g])
                 (snd (draws rng random bevis_data g)))
      as (results' & g' & Heq & Hlen & Hall).
    + apply Forall_app. split; [exact Hres |].
      constructor; [apply HP | constructor].
    + exists results', g'. split; [exact Heq |]. split; [| exact Hall].
      rewrite Hlen, length_app. simpl. lia.
Qed.

Lemma monte_carlo_invariant (P : Qc -> Prop) (g : rng) :
  (forall g, P (trial_sample rng random prior bevis_data
                             enable_negative_evidence
                             negative_bevis_data g)) ->
  exists results g',
    monte_carlo_simulering rng random prior (UseIntervals bevis_data)
                           enable_negative_evidence negative_bevis_data g
    = Ok (Shown results, g')
    /\ List.length results = n_samples
    /\ Forall P results.
Proof.
  intro HP. unfold monte_carlo_simulering.
  destruct (trials_invariant P HP n_samples [] g (Forall_nil P))
    as (results & g' & -> & Hlen & Hall).
  exists results, g'. cbn [bind]. auto.
Qed.

End MonteCarloFacts.

(** ** Order facts on canonical rationals *)

Lemma Qc_mul_nonneg (a b : Qc) : 0 <= a -> 0 <= b -> 0 <= a * b.
Proof.
  intros Ha Hb. replace 0 with (0 * b) by ring.
  apply Qcmult_le_compat_r; assumption.
Qed.

Lemma Qc_add_nonneg (a b : Qc) : 0 <= a -> 0 <= b -> 0 <= a + b.
Proof.
  intros Ha Hb. replace 0 with (0 + 0) by ring.
  apply Qcplus_le_compat; assumption.
Qed.

Lemma Qc_sub_nonneg (a b : Qc) : a <= b -> 0 <= b - a.
Proof.
  intro H. replace 0 with (a - a) by ring.
  unfold Qcminus. apply Qcplus_le_compat; [exact H | apply Qcle_refl].
Qed.

Lemma Qc_le_add_r (a b : Qc) : 0 <= b -> a <= a + b.
Proof.
  intro H. replace a with (a + 0) at 1 by ring.
  apply Qcplus_le_compat; [apply Qcle_refl | exact H].
Qed.

Lemma Qc_pos_of_nonneg_ne (a : Qc) : 0 <= a -> a <> 0 -> 0 < a.
Proof.
  intros Hle Hne. destruct (Qcle_lt_or_eq _ _ Hle) as [H | H].
  - exact H.
  - symmetry in H. contradiction.
Qed.

(** A quotient [n / (n + m)] of non-negative parts lies in the unit
    interval. *)
Lemma Qc_share_in_unit (n m : Qc) :
  0 <= n -> 0 <= m -> n + m <> 0 -> 0 <= n / (n + m) /\ n / (n + m) <= 1.
Proof.
  intros Hn Hm Hne.
  assert (Hpos : 0 < n + m)
    by (apply Qc_pos_of_nonneg_ne; [apply Qc_add_nonneg |]; assumption).
  assert (Hq : n / (n + m) * (n + m) = n) by (field; exact Hne).
  split; apply (Qcmult_lt_0_le_reg_r _ _ (n + m) Hpos); rewrite Hq.
  - replace (0 * (n + m)) with 0 by ring. exact Hn.
  - replace (1 * (n + m)) with (n + m) by ring. apply Qc_le_add_r, Hm.
Qed.

Lemma bayes_in_unit (p pg pi : Qc) :
  0 <= p <= 1 -> 0 <= pg -> 0 <= pi ->
  pg * p + pi * (1 - p) <> 0 ->
  0 <= bayes pg pi p <= 1.
Proof.
  intros [Hp0 Hp1] Hg Hi Hden.
  rewrite bayes_nonzero_denominator by exact Hden.
  apply Qc_share_in_unit.
  - apply Qc_mul_nonneg; assumption.
  - apply Qc_mul_nonneg; [assumption | apply Qc_sub_nonneg; assumption].
  - exact Hden.
Qed.

(** ** The star network and Dempster's rule *)

Lemma bayesian_network_demo_ok (p_s_true : Qc) (bevis_bn : list (Qc * Qc)) :
  let top :=
    p_s_true * fold_left (fun acc '(pb_s, pb_ns) => acc * pb_s) bevis_bn 1 in
  let bottom :=
    top + (1 - p_s_true)
          * fold_left (fun acc '(pb_s, pb_ns) => acc * pb_ns) bevis_bn 1 in
  bayesian_network_demo p_s_true bevis_bn
  = Ok (if Qc_eq_dec bottom 0 then 0 else top / bottom).
Proof.
  intros top bottom. unfold bayesian_network_demo. fold top. fold bottom.
  destruct (eq_spec bottom 0) as [E | E]; destruct (Qc_eq_dec bottom 0);
    try contradiction.
  - reflexivity.
  - apply truediv_ok. assumption.
Qed.

Lemma dempster_rejected (bA_skuld bA_oskuld bB_skuld bB_oskuld : Qc) :
  1 < bA_skuld + bA_oskuld \/ 1 < bB_skuld + bB_oskuld ->
  dempster_shafer_demo bA_skuld bA_oskuld bB_skuld bB_oskuld
  = Ok (Error SummanKanEjOverstiga1).
Proof.
  intro H. unfold dempster_shafer_demo.
  destruct (gt (bA_skuld + bA_oskuld) 1) eqn:EA; [reflexivity |].
  destruct (gt (bB_skuld + bB_oskuld) 1) eqn:EB; [reflexivity |].
  apply gt_false in EA, EB.
  destruct H as [H | H]; apply Qclt_not_le in H; contradiction.
Qed.

Lemma dempster_total_conflict (bA_skuld bA_oskuld bB_skuld bB_oskuld : Qc) :
  bA_skuld + bA_oskuld <= 1 -> bB_skuld + bB_oskuld <= 1 ->
  1 - (bA_skuld * bB_oskuld + bA_oskuld * bB_skuld) = 0 ->
  dempster_shafer_demo bA_skuld bA_oskuld bB_skuld bB_oskuld
  = Ok (Error TotalKonflikt).
Proof.
  intros HA HB HK. unfold dempster_shafer_demo.
  apply gt_false in HA, HB. rewrite HA, HB.
  destruct (eq_spec (1 - (bA_skuld * bB_oskuld + bA_oskuld * bB_skuld)) 0);
    [reflexivity | contradiction].
Qed.

Lemma dempster_combined (bA_skuld bA_oskuld bB_skuld bB_oskuld : Qc) :
  bA_skuld + bA_oskuld <= 1 -> bB_skuld + bB_oskuld <= 1 ->
  1 - (bA_skuld * bB_oskuld + bA_oskuld * bB_skuld) <> 0 ->
  let bA_okand := 1 - (bA_skuld + bA_oskuld) in
  let bB_okand := 1 - (bB_skuld + bB_oskuld) in
  let conflict := bA_skuld * bB_oskuld + bA_oskuld * bB_skuld in
  let K := 1 - conflict in
  let m_skyldig :=
    (bA_skuld * bB_skuld + bA_skuld * bB_okand + bA_okand * bB_skuld) / K in
  let m_oskuld :=
    (bA_oskuld * bB_oskuld + bA_oskuld * bB_okand + bA_okand * bB_oskuld)
    / K in
  dempster_shafer_demo bA_skuld bA_oskuld bB_skuld bB_oskuld
  = Ok (Shown (mk_dempster m_skyldig m_oskuld (1 - (m_skyldig + m_oskuld))
                           conflict K)).
Proof.
  intros HA HB HK. cbv zeta. unfold dempster_shafer_demo.
  apply gt_false in HA, HB. rewrite HA, HB.
  destruct (eq_spec (1 - (bA_skuld * bB_oskuld + bA_oskuld * bB_skuld)) 0);
    [contradiction |].
  rewrite !truediv_ok by assumption. reflexivity.
Qed.

(** ** Whole percentages in binary64

    The two exhaustive checks are evaluated once; everything else is
    read off them. *)


Lemma combinations_checked :
  Binary64.forall_unordered Binary64.both_orders_agree Binary64.slider_pairs
  = true.
Proof. vm_compute. reflexivity. Qed.

Lemma whole_percents_firstn (f : nat * float -> bool) (m k : nat) :
  forallb f (firstn m Binary64.whole_percents) = true ->
  (k < m)%nat -> (k <= 100)%nat ->
  f (k, Binary64.hundredth k) = true.
Proof.
  intros H Hm Hk. rewrite forallb_forall in H. apply H.
  apply (nth_error_In _ k).
  rewrite nth_error_firstn. apply Nat.ltb_lt in Hm. rewrite Hm.
  unfold Binary64.whole_percents.
  rewrite nth_error_map, nth_error_seq.
  assert (Hlt : (k <? 101)%nat = true) by (apply Nat.ltb_lt; lia).
  rewrite Hlt. reflexivity.
Qed.



Lemma forall_unordered_spec {X : Type} (f : X -> X -> bool) (l : list X) :
  Binary64.forall_unordered f l = true ->
  forall x y, In x l -> In y l -> f x y = true \/ f y x = true.
Proof.
  induction l as [|a t IH]; intros H x y Hx Hy; [destruct Hx |].
  cbn [Binary64.forall_unordered] in H.
  apply andb_true_iff in H. destruct H as [Hhead Htail].
  rewrite forallb_forall in Hhead.
  destruct Hx as [<- | Hx].
  - left. apply Hhead. exact Hy.
  - destruct Hy as [<- | Hy].
    + right. apply Hhead. right. exact Hx.
    + apply IH; assumption.
Qed.

Lemma slider_pairs_in (i j : nat) :
  (i + j <= 100)%nat ->
  In (Binary64.hundredth i, Binary64.hundredth j) Binary64.slider_pairs.
Proof.
  intro H. unfold Binary64.slider_pairs. apply in_flat_map.
  exists i. split; [apply in_seq; lia |].
  apply (in_map (fun j => (Binary64.hundredth i, Binary64.hundredth j))).
  apply in_seq. lia.
Qed.

Lemma orders_agree_on_sliders (i j k l : nat) :
  (i + j <= 100)%nat -> (k + l <= 100)%nat ->
  Binary64.orders_agree
    (Binary64.dempster_shafer_demo
       (Binary64.hundredth i) (Binary64.hundredth j)
       (Binary64.hundredth k) (Binary64.hundredth l))
    (Binary64.dempster_shafer_demo
       (Binary64.hundredth k) (Binary64.hundredth l)
       (Binary64.hundredth i) (Binary64.hundredth j))
  = true.
Proof.
  intros Hij Hkl.
  destruct (forall_unordered_spec _ _ combinations_checked
              _ _ (slider_pairs_in i j Hij) (slider_pairs_in k l Hkl))
    as [H | H];
    unfold Binary64.both_orders_agree in H; cbn [fst snd] in H;
    cbv zeta in H; apply andb_true_iff in H; destruct H as [H1 H2].
  - exact H1.
  - exact H2.
Qed.

(** * The claims *)

(** ** C1 *)

(** For every prior and every list of interval items the first two lists
    are the full traces of the min-pair and mean-pair chains, and the
    third list is the prior alone. *)
Lemma intervals_lengths (prior : Qc) (bevis_data : list (Qc * Qc * Qc * Qc)) :
  exists mins meds maxs,
    do_exact_bayes_calculation_intervals prior bevis_data
    = Ok (mins, meds, maxs)
    /\ List.length mins = S (List.length bevis_data)
    /\ List.length meds = S (List.length bevis_data)
    /\ List.length maxs = 1%nat.
Proof.
  rewrite intervals_result. do 3 eexists. split; [reflexivity |].
  rewrite !bayes_trace_length, !length_map. auto.
Qed.

(** C1: with prior 1/2 and the single interval item
    (0.5, 0.9, 0.1, 0.2), the interval branch of
    [do_exact_bayes_calculation] returns the min list [1/2; 5/6] and the
    median list [1/2; 14/17], but the max list [1/2]: the value 9/11 that
    the chain driven by (max_g, max_i) reaches is computed and never
    appended, so the third sequence has length 1 instead of 2. *)
Theorem interval_max_list_is_never_extended :
  do_exact_bayes_calculation_intervals
    (lit 1 2) [(lit 1 2, lit 9 10, lit 1 10, lit 1 5)]
  = Ok ([lit 1 2; lit 5 6], [lit 1 2; lit 14 17], [lit 1 2])
  /\ bayes_trace (map max_pair [(lit 1 2, lit 9 10, lit 1 10, lit 1 5)])
                 (lit 1 2)
     = [lit 1 2; lit 9 11].
Proof.
  split.
  - rewrite intervals_result. unfold bayes_trace.
    cbn [map min_pair median_pair bayes_steps]. canon.
  - unfold bayes_trace. cbn [map max_pair bayes_steps]. canon.
Qed.

(** ** C2 *)

(** Prior 1/2, the interval item (0.5, 0.9, 0.1, 0.2) and the two
    counter-evidence pairs (0.3, 0.7) and (0.2, 0.8). *)
Lemma interval_motbevis_run :
  berakna_bayes_exakt (lit 1 2)
                      (UseIntervals [(lit 1 2, lit 9 10, lit 1 10, lit 1 5)])
                      true [(lit 3 10, lit 7 10); (lit 1 5, lit 4 5)]
  = Ok (mk_exakt_page
          (IntervalResult [lit 1 2; lit 5 6; lit 15 43]
                          [lit 1 2; lit 14 17; lit 1 3]
                          [lit 1 2; lit 3 31])
          (Some (lit 100 3))).
Proof.
  rewrite exakt_intervals_result. unfold bayes_trace, bayes_fold.
  cbn [map min_pair median_pair bayes_steps app fold_left]. canon.
Qed.

(** C2 as stated fails: on the input above the min list does not gain
    one value per counter-evidence item.  The chain the claim describes
    is [1/2; 5/6; 15/22; 15/43]; the list the handler leaves is
    [1/2; 5/6; 15/43]. *)
Lemma interval_motbevis_not_one_value_per_item :
  bayes_trace (map min_pair [(lit 1 2, lit 9 10, lit 1 10, lit 1 5)]
                 ++ [(lit 3 10, lit 7 10); (lit 1 5, lit 4 5)]) (lit 1 2)
  = [lit 1 2; lit 5 6; lit 15 22; lit 15 43]
  /\ ~ (exists meds maxs final,
          berakna_bayes_exakt
            (lit 1 2) (UseIntervals [(lit 1 2, lit 9 10, lit 1 10, lit 1 5)])
            true [(lit 3 10, lit 7 10); (lit 1 5, lit 4 5)]
          = Ok (mk_exakt_page
                  (IntervalResult
                     (bayes_trace
                        (map min_pair [(lit 1 2, lit 9 10, lit 1 10, lit 1 5)]
                           ++ [(lit 3 10, lit 7 10); (lit 1 5, lit 4 5)])
                        (lit 1 2))
                     meds maxs)
                  final)).
Proof.
  split.
  - unfold bayes_trace. cbn [map min_pair bayes_steps app]. canon.
  - intros (meds & maxs & final & H).
    rewrite interval_motbevis_run in H.
    apply (f_equal (fun r => match r with
                             | Ok (mk_exakt_page (IntervalResult mins _ _) _) =>
                                 List.length mins
                             | _ => 0%nat
                             end)) in H.
    rewrite bayes_trace_length in H. discriminate H.
Qed.

(** C2, amended: for every interval computation and every non-empty
    list of counter-evidence pairs, the continuation treats the three
    lists independently: from the last value of each list it applies the
    update formula once per counter-evidence pair, in order, with the
    pair's first component in the P(B|A) slot and its second in the
    P(B|not A) slot, and then appends to that list exactly one value,
    the one reached after the last pair.  For the min and the median
    list the value it starts from is that chain's posterior after the
    last main evidence item. *)
Theorem interval_motbevis_continuation
        (prior : Qc) (bevis_data : list (Qc * Qc * Qc * Qc))
        (nb : Qc * Qc) (rest : list (Qc * Qc)) :
  exists mins meds maxs a b c,
    do_exact_bayes_calculation_intervals prior bevis_data
    = Ok (mins, meds, maxs)
    /\ last_item mins = Ok a
    /\ last_item meds = Ok b
    /\ last_item maxs = Ok c
    /\ a = bayes_fold (map min_pair bevis_data) prior
    /\ b = bayes_fold (map median_pair bevis_data) prior
    /\ berakna_bayes_exakt prior (UseIntervals bevis_data) true (nb :: rest)
       = Ok (mk_exakt_page
               (IntervalResult (mins ++ [bayes_fold (nb :: rest) a])
                               (meds ++ [bayes_fold (nb :: rest) b])
                               (maxs ++ [bayes_fold (nb :: rest) c]))
               (Some (bayes_fold (nb :: rest) b * lit 100 1))).
Proof.
  exists (bayes_trace (map min_pair bevis_data) prior),
         (bayes_trace (map median_pair bevis_data) prior),
         [prior],
         (bayes_fold (map min_pair bevis_data) prior),
         (bayes_fold (map median_pair bevis_data) prior),
         prior.
  split; [apply intervals_result |].
  split; [apply bayes_trace_last |].
  split; [apply bayes_trace_last |].
  split; [reflexivity |].
  split; [reflexivity |].
  split; [reflexivity |].
  rewrite exakt_intervals_result. cbv zeta.
  now rewrite !bayes_fold_app.
Qed.

(** ** C3 *)




(** ** C4 *)

(** C4: the star network with the single node [(s, ns)] and prior [p]
    returns exactly what one application of the update formula returns
    for the pair [(s, ns)] and the old posterior [p]; when the
    denominator [s*p + ns*(1-p)] is zero both return 0. *)
Theorem star_network_single_node (p s ns : Qc) :
  bayesian_network_demo p [(s, ns)] = posterior_update s ns p
  /\ (s * p + ns * (1 - p) = 0 ->
      bayesian_network_demo p [(s, ns)] = Ok 0
      /\ posterior_update s ns p = Ok 0).
Proof.
  assert (Hsame : bayesian_network_demo p [(s, ns)] = posterior_update s ns p).
  { unfold bayesian_network_demo, posterior_update. cbn [fold_left].
    replace (p * (1 * s)) with (s * p) by ring.
    replace ((1 - p) * (1 * ns)) with (ns * (1 - p)) by ring.
    unfold ne, eq. destruct (Qc_eq_bool (s * p + ns * (1 - p)) 0); reflexivity. }
  split; [exact Hsame |].
  intro Hden. rewrite Hsame, posterior_update_bayes.
  rewrite bayes_zero_denominator by exact Hden. auto.
Qed.

Lemma star_network_single_node_witness :
  bayesian_network_demo 0 [(lit 1 2, 0)] = Ok 0
  /\ posterior_update (lit 1 2) 0 0 = Ok 0.
Proof.
  apply (star_network_single_node 0 (lit 1 2) 0). ring.
Defined.

(** ** C5 *)

(** C5 as stated fails on the program's arithmetic: the sources
    A = (0, 0.1) and B = (0, 0.3) are valid and K is 1, yet the two
    orders show different innocence masses in binary64, 0.37 and
    0.37000000000000005. *)
Lemma dempster_orders_differ :
  ~ (forall gA iA gB iB : float,
        (gA + iA <=? 1)%float = true -> (gB + iB <=? 1)%float = true ->
        (1 - (gA * iB + iA * gB) =? 0)%float = false ->
        Binary64.dempster_shafer_demo gA iA gB iB
        = Binary64.dempster_shafer_demo gB iB gA iA).
Proof.
  intro H.
  assert (E : Binary64.dempster_shafer_demo
                (Binary64.hundredth 0) (Binary64.hundredth 10)
                (Binary64.hundredth 0) (Binary64.hundredth 30)
              = Binary64.dempster_shafer_demo
                  (Binary64.hundredth 0) (Binary64.hundredth 30)
                  (Binary64.hundredth 0) (Binary64.hundredth 10))
    by (apply H; vm_compute; reflexivity).
  apply (f_equal (fun r => match r with
                           | Ok (Shown d) =>
                               (Binary64.m_oskuld d
                                =? Binary64.hundredth 37)%float
                           | _ => false
                           end)) in E.
  vm_compute in E. discriminate E.
Qed.

(** C5, amended: for valid mass assignments (guilt + innocence <= 1 on
    both sides) with K nonzero, both orders show a result with the same
    conflict and the same K.  The combined masses are equal only up to
    rounding: for all slider values (multiples of 0.01) with
    guilt + innocence <= 1 on both sides, in binary64 either both
    orders stop with total conflict, or both show a result with the
    same conflict, the same K and masses that differ by at most
    2^-51. *)
Theorem dempster_orders_agree_up_to_rounding :
  (forall gA iA gB iB : Qc,
      gA + iA <= 1 -> gB + iB <= 1 ->
      1 - (gA * iB + iA * gB) <> 0 ->
      exists d d',
        dempster_shafer_demo gA iA gB iB = Ok (Shown d)
        /\ dempster_shafer_demo gB iB gA iA = Ok (Shown d')
        /\ conflict d = conflict d'
        /\ K d = K d')
  /\ (forall i j k l : nat,
         (i + j <= 100)%nat -> (k + l <= 100)%nat ->
         let ab := Binary64.dempster_shafer_demo
                     (Binary64.hundredth i) (Binary64.hundredth j)
                     (Binary64.hundredth k) (Binary64.hundredth l) in
         let ba := Binary64.dempster_shafer_demo
                     (Binary64.hundredth k) (Binary64.hundredth l)
                     (Binary64.hundredth i) (Binary64.hundredth j) in
         (ab = Ok (Error TotalKonflikt) /\ ba = Ok (Error TotalKonflikt))
         \/ (exists d d',
                ab = Ok (Shown d) /\ ba = Ok (Shown d')
                /\ (Binary64.conflict d =? Binary64.conflict d')%float = true
                /\ (Binary64.K d =? Binary64.K d')%float = true
                /\ Binary64.within_rounding (Binary64.m_skyldig d)
                                            (Binary64.m_skyldig d') = true
                /\ Binary64.within_rounding (Binary64.m_oskuld d)
                                            (Binary64.m_oskuld d') = true
                /\ Binary64.within_rounding (Binary64.m_okand d)
                                            (Binary64.m_okand d') = true)).
Proof.
  split.
  - intros gA iA gB iB HA HB HK.
    assert (HK' : 1 - (gB * iA + iB * gA) <> 0).
    { intro E. apply HK. rewrite <- E. ring. }
    do 2 eexists.
    split; [apply dempster_combined; assumption |].
    split; [apply dempster_combined; assumption |].
    cbn [conflict K]. split; [ring | ring].
  - intros i j k l Hij Hkl. cbv zeta.
    pose proof (orders_agree_on_sliders i j k l Hij Hkl) as H.
    unfold Binary64.orders_agree in H.
    destruct (Binary64.dempster_shafer_demo
                (Binary64.hundredth i) (Binary64.hundredth j)
                (Binary64.hundredth k) (Binary64.hundredth l))
      as [[d | e] | f]; [| | discriminate H].
    + destruct (Binary64.dempster_shafer_demo
                  (Binary64.hundredth k) (Binary64.hundredth l)
                  (Binary64.hundredth i) (Binary64.hundredth j))
        as [[d' | e'] | f']; try discriminate H.
      right. exists d, d'.
      repeat (apply andb_true_iff in H; destruct H as [H ?]).
      repeat split; assumption.
    + destruct e; try discriminate H.
      destruct (Binary64.dempster_shafer_demo
                  (Binary64.hundredth k) (Binary64.hundredth l)
                  (Binary64.hundredth i) (Binary64.hundredth j))
        as [[d' | e'] | f']; try discriminate H.
      destruct e'; try discriminate H.
      left. split; reflexivity.
Qed.

Lemma dempster_orders_agree_up_to_rounding_witness :
  (exists d d',
      dempster_shafer_demo (lit 1 2) (lit 1 5) (lit 2 5) (lit 3 10)
      = Ok (Shown d)
      /\ dempster_shafer_demo (lit 2 5) (lit 3 10) (lit 1 2) (lit 1 5)
         = Ok (Shown d')
      /\ conflict d = conflict d'
      /\ K d = K d')
  /\ (exists d d',
         Binary64.dempster_shafer_demo
           (Binary64.hundredth 0) (Binary64.hundredth 10)
           (Binary64.hundredth 0) (Binary64.hundredth 30) = Ok (Shown d)
         /\ Binary64.dempster_shafer_demo
              (Binary64.hundredth 0) (Binary64.hundredth 30)
              (Binary64.hundredth 0) (Binary64.hundredth 10) = Ok (Shown d')
         /\ Binary64.within_rounding (Binary64.m_oskuld d)
                                     (Binary64.m_oskuld d') = true).
Proof.
  destruct dempster_orders_agree_up_to_rounding as [Hexact Hfloat].
  split.
  - apply (Hexact (lit 1 2) (lit 1 5) (lit 2 5) (lit 3 10)); qc_order.
  - destruct (Hfloat 0%nat 10%nat 0%nat 30%nat) as [[Hab _] | Hshown];
      [lia | lia | |].
    + apply (f_equal (fun r => match r with
                               | Ok (Shown _) => true
                               | _ => false
                               end)) in Hab.
      vm_compute in Hab. discriminate Hab.
    + destruct Hshown as (d & d' & Hab & Hba & _ & _ & _ & Hi & _).
      exists d, d'. repeat split; assumption.
Defined.

(** ** C6 *)

(** C6: [dempster_shafer_demo] never faults.  It stops with an error
    message, showing no numbers, exactly when a source has
    guilt + innocence > 1 or K = 1 - conflict is 0; in every other case
    it shows the combined triple with the conflict and K. *)
Theorem dempster_error_cases (gA iA gB iB : Qc) :
  let conflict := gA * iB + iA * gB in
  let K := 1 - conflict in
  let m_g := (gA * gB + gA * (1 - (gB + iB)) + (1 - (gA + iA)) * gB) / K in
  let m_i := (iA * iB + iA * (1 - (gB + iB)) + (1 - (gA + iA)) * iB) / K in
  ((exists e, dempster_shafer_demo gA iA gB iB = Ok (Error e))
   <-> (1 < gA + iA \/ 1 < gB + iB \/ K = 0))
  /\ (~ (1 < gA + iA \/ 1 < gB + iB \/ K = 0) ->
      dempster_shafer_demo gA iA gB iB
      = Ok (Shown (mk_dempster m_g m_i (1 - (m_g + m_i)) conflict K))).
Proof.
  cbv zeta.
  assert (Hshown :
            ~ (1 < gA + iA \/ 1 < gB + iB \/ 1 - (gA * iB + iA * gB) = 0) ->
            dempster_shafer_demo gA iA gB iB
            = Ok (Shown
                    (mk_dempster
                       ((gA * gB + gA * (1 - (gB + iB))
                         + (1 - (gA + iA)) * gB)
                        / (1 - (gA * iB + iA * gB)))
                       ((iA * iB + iA * (1 - (gB + iB))
                         + (1 - (gA + iA)) * iB)
                        / (1 - (gA * iB + iA * gB)))
                       (1 - ((gA * gB + gA * (1 - (gB + iB))
                              + (1 - (gA + iA)) * gB)
                             / (1 - (gA * iB + iA * gB))
                             + (iA * iB + iA * (1 - (gB + iB))
                                + (1 - (gA + iA)) * iB)
                               / (1 - (gA * iB + iA * gB))))
                       (gA * iB + iA * gB)
                       (1 - (gA * iB + iA * gB))))).
  { intro H. apply dempster_combined.
    - apply Qcnot_lt_le. tauto.
    - apply Qcnot_lt_le. tauto.
    - tauto. }
  split; [split |].
  - intros [e He].
    destruct (Qclt_le_dec 1 (gA + iA)) as [HA | HA]; [now left |].
    destruct (Qclt_le_dec 1 (gB + iB)) as [HB | HB]; [now right; left |].
    destruct (Qc_eq_dec (1 - (gA * iB + iA * gB)) 0) as [HK | HK];
      [now right; right |].
    rewrite Hshown in He; [discriminate He |].
    intros [H | [H | H]]; try contradiction;
      apply Qclt_not_le in H; contradiction.
  - intro H.
    destruct (Qclt_le_dec 1 (gA + iA)) as [HA | HA].
    { eexists. apply dempster_rejected. now left. }
    destruct (Qclt_le_dec 1 (gB + iB)) as [HB | HB].
    { eexists. apply dempster_rejected. now right. }
    destruct H as [H | [H | H]].
    + apply Qclt_not_le in H. contradiction.
    + apply Qclt_not_le in H. contradiction.
    + eexists. apply dempster_total_conflict; assumption.
  - exact Hshown.
Qed.

Lemma dempster_error_cases_witness :
  (exists e, dempster_shafer_demo 1 0 0 1 = Ok (Error e))
  /\ (exists e, dempster_shafer_demo (lit 3 5) (lit 1 2) (lit 2 5) (lit 3 10)
                = Ok (Error e))
  /\ (exists d, dempster_shafer_demo (lit 1 2) (lit 1 5) (lit 2 5) (lit 3 10)
                = Ok (Shown d)).
Proof.
  split; [| split].
  - apply (dempster_error_cases 1 0 0 1). right. right. ring.
  - apply (dempster_error_cases (lit 3 5) (lit 1 2) (lit 2 5) (lit 3 10)).
    left. qc_order.
  - eexists.
    apply (dempster_error_cases (lit 1 2) (lit 1 5) (lit 2 5) (lit 3 10)).
    intros [H | [H | H]].
    + revert H. qc_order.
    + revert H. qc_order.
    + apply (f_equal this) in H. vm_compute in H. discriminate H.
Defined.

(** ** C7 *)

Lemma berakna_bayes_exakt_total (prior : Qc) (input : bevis_input)
      (enable_negative_evidence : bool)
      (negative_bevis_data : list (Qc * Qc)) :
  exists shown,
    berakna_bayes_exakt prior input enable_negative_evidence
                        negative_bevis_data = Ok shown.
Proof.
  destruct input as [bevis_data | bevis_data].
  - destruct enable_negative_evidence.
    + destruct negative_bevis_data as [|nb rest].
      * eexists. now apply exakt_intervals_plain.
      * eexists. apply exakt_intervals_result.
    + eexists. now apply exakt_intervals_plain.
  - destruct (exakt_points_result prior bevis_data enable_negative_evidence
                                  negative_bevis_data) as (rows & _ & H).
    eexists. exact H.
Qed.

Lemma monte_carlo_total (rng : Type) (random : rng -> Qc * rng)
      (prior : Qc) (input : bevis_input) (enable_negative_evidence : bool)
      (negative_bevis_data : list (Qc * Qc)) (g : rng) :
  exists shown g',
    monte_carlo_simulering rng random prior input enable_negative_evidence
                           negative_bevis_data g = Ok (shown, g').
Proof.
  destruct input as [bevis_data | bevis_data].
  - destruct (monte_carlo_invariant rng random prior bevis_data
                enable_negative_evidence negative_bevis_data
                (fun _ => True) g (fun _ => I))
      as (results & g' & H & _).
    now exists (Shown results), g'.
  - now exists (Error IntervallLageMasteVaraAktiverat), g.
Qed.

(** C7: no computation of the core faults, whatever the numbers are.
    The update formula always returns a value, which is 0 when its
    denominator is 0; [do_exact_bayes_calculation] in both forms, the
    "Beräkna Bayes (Exakt)" handler with its counter-evidence
    continuation, the Monte Carlo handler with any random source, and
    the star network all return a value, the star network returning 0
    when [bottom] is 0. *)
Theorem no_unhandled_fault :
  (forall pba pbna old,
      (exists r, posterior_update pba pbna old = Ok r)
      /\ (pba * old + pbna * (1 - old) = 0 ->
          posterior_update pba pbna old = Ok 0))
  /\ (forall prior input,
         exists r, do_exact_bayes_calculation prior input = Ok r)
  /\ (forall prior input enable_negative_evidence negative_bevis_data,
         exists shown,
           berakna_bayes_exakt prior input enable_negative_evidence
                               negative_bevis_data = Ok shown)
  /\ (forall (rng : Type) (random : rng -> Qc * rng)
             prior input enable_negative_evidence negative_bevis_data g,
         exists shown g',
           monte_carlo_simulering rng random prior input
                                  enable_negative_evidence
                                  negative_bevis_data g = Ok (shown, g'))
  /\ (forall p_s_true bevis_bn,
         (exists r, bayesian_network_demo p_s_true bevis_bn = Ok r)
         /\ (p_s_true
             * fold_left (fun acc '(pb_s, pb_ns) => acc * pb_s) bevis_bn 1
             + (1 - p_s_true)
               * fold_left (fun acc '(pb_s, pb_ns) => acc * pb_ns) bevis_bn 1
             = 0 ->
             bayesian_network_demo p_s_true bevis_bn = Ok 0)).
Proof.
  repeat split.
  - eexists. apply posterior_update_bayes.
  - intro H. rewrite posterior_update_bayes.
    now rewrite bayes_zero_denominator.
  - intros prior [bevis_data | bevis_data]; unfold do_exact_bayes_calculation.
    + rewrite intervals_result. eexists. reflexivity.
    + destruct (points_result prior bevis_data) as (rows & _ & ->).
      eexists. reflexivity.
  - apply berakna_bayes_exakt_total.
  - apply monte_carlo_total.
  - eexists. apply bayesian_network_demo_ok.
  - intro H. rewrite bayesian_network_demo_ok. cbv zeta.
    destruct (Qc_eq_dec _ 0); [reflexivity | contradiction].
Qed.

Lemma no_unhandled_fault_witness :
  posterior_update (lit 1 2) 0 0 = Ok 0
  /\ bayesian_network_demo 1 [(0, lit 1 2); (lit 1 2, lit 1 2)] = Ok 0.
Proof.
  destruct no_unhandled_fault as (Hupdate & _ & _ & _ & Hstar).
  split.
  - apply (Hupdate (lit 1 2) 0 0). ring.
  - apply (Hstar 1 [(0, lit 1 2); (lit 1 2, lit 1 2)]).
    cbn [fold_left]. ring.
Defined.

(** ** C8 *)

(** C8: when every interval item is degenerate, the Monte Carlo handler
    collects 1000 samples, whatever the random source draws, and every
    one of them is the final posterior of the exact point calculation on
    the same fixed values (with the same counter-evidence setting),
    expressed as a percentage as the handler stores it. *)
Theorem monte_carlo_degenerate
        (rng : Type) (random : rng -> Qc * rng)
        (prior : Qc) (bevis_data : list (Qc * Qc * Qc * Qc))
        (enable_negative_evidence : bool)
        (negative_bevis_data : list (Qc * Qc)) (g : rng) :
  Forall degenerate bevis_data ->
  exists results g' posterior_list rows final,
    monte_carlo_simulering rng random prior (UseIntervals bevis_data)
                           enable_negative_evidence negative_bevis_data g
    = Ok (Shown results, g')
    /\ List.length results = 1000%nat
    /\ berakna_bayes_exakt prior (ExactValues (map min_pair bevis_data))
                           enable_negative_evidence negative_bevis_data
       = Ok (mk_exakt_page (PointResult posterior_list rows)
                           (Some (final * lit 100 1)))
    /\ last_item posterior_list = Ok final
    /\ Forall (fun sample => sample = final * lit 100 1) results.
Proof.
  intro Hdeg.
  assert (Hpairs : Forall (fun b => min_pair b = max_pair b) bevis_data).
  { eapply Forall_impl; [| exact Hdeg].
    intros [[[mina maxa] minna] maxna] [-> ->]. reflexivity. }
  set (all := map min_pair bevis_data
                ++ applied_motbevis enable_negative_evidence
                                    negative_bevis_data).
  destruct (monte_carlo_invariant rng random prior bevis_data
              enable_negative_evidence negative_bevis_data
              (fun sample => sample = bayes_fold all prior * lit 100 1) g)
    as (results & g' & Hrun & Hlen & Hall).
  { intro g0. unfold trial_sample.
    now rewrite (draws_degenerate rng random bevis_data Hpairs). }
  destruct (exakt_points_result prior (map min_pair bevis_data)
              enable_negative_evidence negative_bevis_data)
    as (rows & _ & Hexact).
  exists results, g', (bayes_trace all prior), rows, (bayes_fold all prior).
  repeat split; try assumption.
  apply bayes_trace_last.
Qed.

Lemma monte_carlo_degenerate_witness :
  exists results g' posterior_list rows final,
    monte_carlo_simulering nat (fun n => (lit 1 3, S n)) (lit 1 100)
                           (UseIntervals
                              [(lit 95 100, lit 95 100, lit 1 1000, lit 1 1000)])
                           true [(lit 3 10, lit 7 10)] 0%nat
    = Ok (Shown results, g')
    /\ List.length results = 1000%nat
    /\ berakna_bayes_exakt (lit 1 100)
                           (ExactValues
                              (map min_pair
                                   [(lit 95 100, lit 95 100,
                                     lit 1 1000, lit 1 1000)]))
                           true [(lit 3 10, lit 7 10)]
       = Ok (mk_exakt_page (PointResult posterior_list rows)
                           (Some (final * lit 100 1)))
    /\ last_item posterior_list = Ok final
    /\ Forall (fun sample => sample = final * lit 100 1) results.
Proof.
  apply (monte_carlo_degenerate nat (fun n => (lit 1 3, S n))).
  repeat constructor.
Defined.

(** ** C9 *)

(** The scenario: prior 1 %, one item with P(B|A) = 95 % and
    P(B|not A) = 0.1 %. *)
Lemma scenario_run :
  do_exact_bayes_calculation_points (lit 1 100) [(lit 95 100, lit 1 1000)]
  = Ok ([lit 1 100; lit 950 1049],
        [mk_row (Bevis 1) (lit 95 1) (lit 1 10) (lit 1 1) (lit 95000 1049)
                (lit 93951 1049) TalarStarktForSkuld]).
Proof.
  unfold do_exact_bayes_calculation_points. cbn [for_each].
  rewrite point_body_ok. cbn [bind]. cbv zeta.
  cbn [row_list posterior_list current_posterior i app].
  assert (Hpost : bayes (lit 95 100) (lit 1 1000) (lit 1 100) = lit 950 1049)
    by canon.
  rewrite Hpost.
  assert (Hpct : lit 950 1049 * lit 100 1 = lit 95000 1049) by canon.
  rewrite Hpct.
  assert (Hkomm : step_kommentar (lit 95000 1049) = TalarStarktForSkuld)
    by (vm_compute; reflexivity).
  rewrite Hkomm. canon.
Qed.

(** C9 as stated fails: the new posterior of the scenario, in per cent,
    is not a value that is shown as 90.59. *)
Lemma scenario_is_not_90_59 :
  ~ (exists posts r,
        do_exact_bayes_calculation_points
          (lit 1 100) [(lit 95 100, lit 1 1000)] = Ok (posts, [r])
        /\ shown_as (lit 9059 100) (row_ny_post r)
        /\ row_kommentar r = TalarStarktForSkuld).
Proof.
  intros (posts & r & Hrun & [Hlow _] & _).
  rewrite scenario_run in Hrun. injection Hrun as _ <-.
  cbn [row_ny_post] in Hlow. revert Hlow. qc_order.
Qed.

(** C9, amended: in the scenario the point form returns the trace
    [1/100; 950/1049]; the one row has the new posterior 95000/1049 per
    cent, which is shown as 90.56, and carries the comment of the >= 80
    tier, "Talar starkt för skuld (>80%)". *)
Theorem scenario_is_90_56_strongly_indicating_guilt :
  exists r,
    do_exact_bayes_calculation_points (lit 1 100) [(lit 95 100, lit 1 1000)]
    = Ok ([lit 1 100; lit 950 1049], [r])
    /\ row_ny_post r = lit 950 1049 * lit 100 1
    /\ shown_as (lit 9056 100) (row_ny_post r)
    /\ row_kommentar r = TalarStarktForSkuld
    /\ kommentar_text (row_kommentar r) = "Talar starkt för skuld (>80%)"%string.
Proof.
  eexists. split; [apply scenario_run |].
  cbn [row_ny_post row_kommentar].
  split; [canon |].
  split; [split; qc_order |].
  split; reflexivity.
Qed.

(** ** C10 *)

(** C10: 0 is absorbing.  The update formula returns 0 from the old
    posterior 0 for every pair; hence the point calculation started at 0
    yields only zeros, the counter-evidence continuation of a trace that
    ends in 0 appends only zeros, and in a Monte Carlo trial both inner
    loops stay at 0 once the running posterior is 0, whatever is drawn. *)
Theorem zero_is_absorbing :
  (forall pba pbna, posterior_update pba pbna 0 = Ok 0)
  /\ (forall bevis_data,
         exists rows,
           do_exact_bayes_calculation_points 0 bevis_data
           = Ok (repeat 0 (S (List.length bevis_data)), rows))
  /\ (forall init rows negative_bevis_data,
         exists rows',
           motbevis_points (init ++ [0], rows) negative_bevis_data
           = Ok ((init ++ [0])
                   ++ repeat 0 (List.length negative_bevis_data),
                 rows', 0))
  /\ (forall (rng : Type) (random : rng -> Qc * rng) bevis_data g,
         exists g',
           for_each (sample_body rng random) bevis_data (0, g) = Ok (0, g'))
  /\ (forall negative_bevis_data,
         for_each sample_motbevis_body negative_bevis_data 0 = Ok 0).
Proof.
  split; [| split; [| split; [| split]]].
  - intros pba pbna. now rewrite posterior_update_bayes, bayes_at_zero.
  - intro bevis_data.
    destruct (points_result 0 bevis_data) as (rows & _ & ->).
    exists rows. unfold bayes_trace. now rewrite bayes_steps_zero.
  - intros init rows negative_bevis_data.
    destruct (motbevis_points_result init 0 rows negative_bevis_data)
      as (rows' & _ & ->).
    exists (rows ++ rows').
    rewrite bayes_steps_zero, bayes_fold_zero.
    replace (0 * lit 100 1) with 0 by ring. reflexivity.
  - intros rng random bevis_data g. eexists.
    rewrite sample_loop, bayes_fold_zero. reflexivity.
  - intro negative_bevis_data.
    now rewrite sample_motbevis_loop, bayes_fold_zero.
Qed.

(** * Further properties of the code *)

(** ** From canonical rationals to [Q], where [lra] decides *)

Lemma Qc_eq_iff (a b : Qc) : a = b <-> (this a == this b)%Q.
Proof. split; [intros ->; reflexivity | apply Qc_is_canon]. Qed.

Ltac qc_to_q :=
  unfold probability in *;
  repeat match goal with
         | H : _ /\ _ |- _ => destruct H
         | H : @Logic.eq Qc _ _ |- _ => apply Qc_eq_iff in H
         | H : ~ @Logic.eq Qc _ _ |- _ => rewrite Qc_eq_iff in H
         | |- @Logic.eq Qc _ _ => apply Qc_eq_iff
         | |- ~ @Logic.eq Qc _ _ => rewrite Qc_eq_iff
         end;
  unfold lit in *;
  unfold Qcle, Qclt, Qcdiv, Qcminus, Qcplus, Qcmult, Qcopp, Qcinv, Q2Qc in *;
  cbn [this] in *;
  rewrite ?Qred_correct in *;
  repeat match goal with
         | |- context [Qinv (Qmake ?n ?d)] =>
             let v := eval compute in (Qinv (Qmake n d)) in
             change (Qinv (Qmake n d)) with v
         | H : context [Qinv (Qmake ?n ?d)] |- _ =>
             let v := eval compute in (Qinv (Qmake n d)) in
             change (Qinv (Qmake n d)) with v in H
         end.

(** ** The posterior stays a probability *)

Lemma probability_zero : probability 0.
Proof. split; qc_order. Qed.

Lemma bayes_probability (pba pbna p : Qc) :
  probability p -> 0 <= pba -> 0 <= pbna -> probability (bayes pba pbna p).
Proof.
  intros Hp Ha Hb.
  destruct (Qc_eq_dec (pba * p + pbna * (1 - p)) 0) as [E | E].
  - rewrite bayes_zero_denominator by exact E. apply probability_zero.
  - apply bayes_in_unit; assumption.
Qed.

Lemma bayes_steps_probability (pairs : list (Qc * Qc)) :
  Forall probability_pair pairs ->
  forall p, probability p -> Forall probability (bayes_steps pairs p).
Proof.
  induction 1 as [|[a b] rest [[Ha _] [Hb _]] _ IH]; intros p Hp.
  - constructor.
  - cbn [bayes_steps]. cbv zeta.
    assert (Hq : probability (bayes a b p))
      by (apply bayes_probability; assumption).
    constructor; [exact Hq | apply IH, Hq].
Qed.

Lemma bayes_trace_probability (pairs : list (Qc * Qc)) (p : Qc) :
  Forall probability_pair pairs -> probability p ->
  Forall probability (bayes_trace pairs p).
Proof.
  intros Hpairs Hp. unfold bayes_trace.
  constructor; [exact Hp | now apply bayes_steps_probability].
Qed.

Lemma bayes_fold_probability (pairs : list (Qc * Qc)) :
  Forall probability_pair pairs ->
  forall p, probability p -> probability (bayes_fold pairs p).
Proof.
  induction 1 as [|[a b] rest [[Ha _] [Hb _]] _ IH]; intros p Hp.
  - exact Hp.
  - unfold bayes_fold. cbn [fold_left]. apply IH.
    apply bayes_probability; assumption.
Qed.

(** X1: with a prior and evidence pairs in [0,1], with or without
    counter-evidence, every posterior that "Beräkna Bayes (Exakt)"
    lists in the point form is in [0,1], and the final percentage it
    stores is in [0,100]. *)
Theorem point_posteriors_are_probabilities
        (prior : Qc) (bevis_data : list (Qc * Qc))
        (enable_negative_evidence : bool)
        (negative_bevis_data : list (Qc * Qc)) :
  probability prior ->
  Forall probability_pair bevis_data ->
  Forall probability_pair negative_bevis_data ->
  exists posteriors rows final,
    berakna_bayes_exakt prior (ExactValues bevis_data)
                        enable_negative_evidence negative_bevis_data
    = Ok (mk_exakt_page (PointResult posteriors rows) (Some final))
    /\ Forall probability posteriors
    /\ 0 <= final <= lit 100 1.
Proof.
  intros Hp Hev Hneg.
  destruct (exakt_points_result prior bevis_data enable_negative_evidence
                                negative_bevis_data) as (rows & _ & Hrun).
  cbv zeta in Hrun.
  assert (Hall : Forall probability_pair
                        (bevis_data
                           ++ applied_motbevis enable_negative_evidence
                                               negative_bevis_data)).
  { apply Forall_app. split; [exact Hev |].
    destruct enable_negative_evidence; [exact Hneg | constructor]. }
  do 3 eexists. split; [exact Hrun |].
  split; [now apply bayes_trace_probability |].
  pose proof (bayes_fold_probability _ Hall prior Hp) as Hlast.
  set (v := bayes_fold _ prior) in *. clearbody v.
  split; qc_to_q; lra.
Qed.

Lemma point_posteriors_are_probabilities_witness :
  exists posteriors rows final,
    berakna_bayes_exakt (lit 1 100)
                        (ExactValues [(lit 95 100, lit 1 1000); (0, 0)])
                        true [(lit 3 10, lit 7 10)]
    = Ok (mk_exakt_page (PointResult posteriors rows) (Some final))
    /\ Forall probability posteriors
    /\ 0 <= final <= lit 100 1.
Proof.
  apply point_posteriors_are_probabilities.
  - split; qc_order.
  - repeat constructor; qc_order.
  - repeat constructor; qc_order.
Defined.

Lemma min_pairs_probability (bevis_data : list (Qc * Qc * Qc * Qc)) :
  Forall probability_item bevis_data ->
  Forall probability_pair (map min_pair bevis_data).
Proof.
  induction 1 as [|[[[mina maxa] minna] maxna] rest (H1 & H2 & H3 & H4) _ IH];
    constructor; [split; assumption | exact IH].
Qed.

Lemma max_pairs_probability (bevis_data : list (Qc * Qc * Qc * Qc)) :
  Forall probability_item bevis_data ->
  Forall probability_pair (map max_pair bevis_data).
Proof.
  induction 1 as [|[[[mina maxa] minna] maxna] rest (H1 & H2 & H3 & H4) _ IH];
    constructor; [split; assumption | exact IH].
Qed.

Lemma mean_probability (a b : Qc) :
  probability a -> probability b -> probability ((a + b) / lit 2 1).
Proof. intros Ha Hb. split; qc_to_q; lra. Qed.

Lemma median_pairs_probability (bevis_data : list (Qc * Qc * Qc * Qc)) :
  Forall probability_item bevis_data ->
  Forall probability_pair (map median_pair bevis_data).
Proof.
  induction 1 as [|[[[mina maxa] minna] maxna] rest (H1 & H2 & H3 & H4) _ IH];
    constructor; [| exact IH].
  split; apply mean_probability; assumption.
Qed.

(** X2: in the interval form, with a prior, interval endpoints and
    counter-evidence pairs in [0,1], every value of the three lists that
    "Beräkna Bayes (Exakt)" shows is in [0,1], whether or not
    counter-evidence is applied. *)
Theorem interval_posteriors_are_probabilities
        (prior : Qc) (bevis_data : list (Qc * Qc * Qc * Qc))
        (enable_negative_evidence : bool)
        (negative_bevis_data : list (Qc * Qc)) :
  probability prior ->
  Forall probability_item bevis_data ->
  Forall probability_pair negative_bevis_data ->
  exists mins meds maxs final,
    berakna_bayes_exakt prior (UseIntervals bevis_data)
                        enable_negative_evidence negative_bevis_data
    = Ok (mk_exakt_page (IntervalResult mins meds maxs) final)
    /\ Forall probability mins
    /\ Forall probability meds
    /\ Forall probability maxs.
Proof.
  intros Hp Hev Hneg.
  pose proof (min_pairs_probability _ Hev) as Hmin.
  pose proof (median_pairs_probability _ Hev) as Hmed.
  assert (Hplain :
            applied_motbevis enable_negative_evidence negative_bevis_data = []
            -> exists mins meds maxs final,
              berakna_bayes_exakt prior (UseIntervals bevis_data)
                                  enable_negative_evidence
                                  negative_bevis_data
              = Ok (mk_exakt_page (IntervalResult mins meds maxs) final)
              /\ Forall probability mins
              /\ Forall probability meds
              /\ Forall probability maxs).
  { intro Hnone. do 4 eexists.
    split; [now apply exakt_intervals_plain |].
    split; [now apply bayes_trace_probability |].
    split; [now apply bayes_trace_probability |].
    constructor; [exact Hp | constructor]. }
  destruct enable_negative_evidence; [| now apply Hplain].
  destruct negative_bevis_data as [|nb rest]; [now apply Hplain |].
  do 4 eexists. split; [apply exakt_intervals_result |]. cbv zeta.
  split; [| split].
  - apply Forall_app. split; [now apply bayes_trace_probability |].
    constructor; [| constructor].
    apply bayes_fold_probability; [| exact Hp].
    apply Forall_app. now split.
  - apply Forall_app. split; [now apply bayes_trace_probability |].
    constructor; [| constructor].
    apply bayes_fold_probability; [| exact Hp].
    apply Forall_app. now split.
  - constructor; [exact Hp |]. constructor; [| constructor].
    now apply bayes_fold_probability.
Qed.

Lemma interval_posteriors_are_probabilities_witness :
  exists mins meds maxs final,
    berakna_bayes_exakt (lit 1 2)
                        (UseIntervals [(lit 1 2, lit 9 10, lit 1 10, lit 1 5)])
                        true [(lit 3 10, lit 7 10)]
    = Ok (mk_exakt_page (IntervalResult mins meds maxs) final)
    /\ Forall probability mins
    /\ Forall probability meds
    /\ Forall probability maxs.
Proof.
  apply interval_posteriors_are_probabilities.
  - split; qc_order.
  - repeat constructor; qc_order.
  - repeat constructor; qc_order.
Defined.

(** ** The table of the point form *)

Lemma table_rows_length (label : nat -> bevis_nr) (komm : Qc -> kommentar)
      (pairs : list (Qc * Qc)) :
  forall i p, List.length (table_rows label komm i pairs p) = List.length pairs.
Proof.
  induction pairs as [|[a b] rest IH]; intros i p; simpl.
  - reflexivity.
  - now rewrite IH.
Qed.

(** Row [k] of a table is built from pair [k] and from entries [k] and
    [k+1] of the trace. *)
Lemma table_rows_nth (label : nat -> bevis_nr) (komm : Qc -> kommentar)
      (pairs : list (Qc * Qc)) :
  forall i p k r,
    nth_error (table_rows label komm i pairs p) k = Some r ->
    exists a b old,
      nth_error pairs k = Some (a, b)
      /\ nth_error (bayes_trace pairs p) k = Some old
      /\ nth_error (bayes_trace pairs p) (S k) = Some (bayes a b old)
      /\ r = mk_row (label (i + k)%nat) (a * lit 100 1) (b * lit 100 1)
                    (old * lit 100 1) (bayes a b old * lit 100 1)
                    ((bayes a b old - old) * lit 100 1)
                    (komm (bayes a b old * lit 100 1)).
Proof.
  induction pairs as [|[a b] rest IH]; intros i p k r Hk.
  - destruct k; discriminate Hk.
  - destruct k as [|k].
    + cbn in Hk. injection Hk as <-.
      exists a, b, p. rewrite Nat.add_0_r. repeat split.
    + cbn [table_rows nth_error] in Hk. cbv zeta in Hk.
      destruct (IH _ _ _ _ Hk) as (a' & b' & old & Hp & Ho & Hn & ->).
      exists a', b', old. unfold bayes_trace in *.
      cbn [bayes_steps nth_error]. cbv zeta.
      repeat split; try assumption.
      replace (i + 1 + k)%nat with (i + S k)%nat by lia. reflexivity.
Qed.

Lemma point_loop_rows (bevis_data : list (Qc * Qc)) :
  forall st,
    for_each point_body bevis_data st
    = Ok (mk_point_state
            (row_list st
               ++ table_rows Bevis step_kommentar (i st) bevis_data
                             (current_posterior st))
            (posterior_list st ++ bayes_steps bevis_data (current_posterior st))
            (bayes_fold bevis_data (current_posterior st))
            (i st + List.length bevis_data)).
Proof.
  induction bevis_data as [|[pba pbna] rest IH]; intros [rows posts cur n].
  - simpl. now rewrite !app_nil_r, Nat.add_0_r.
  - cbn [for_each]. rewrite point_body_ok. cbn [bind]. cbv zeta.
    rewrite IH.
    cbn [row_list posterior_list current_posterior i bayes_steps bayes_fold
         fold_left List.length table_rows].
    rewrite <- !app_assoc. cbn [app]. do 2 f_equal. lia.
Qed.

Lemma points_table (prior : Qc) (bevis_data : list (Qc * Qc)) :
  do_exact_bayes_calculation_points prior bevis_data
  = Ok (bayes_trace bevis_data prior,
        table_rows Bevis step_kommentar 1 bevis_data prior).
Proof.
  unfold do_exact_bayes_calculation_points.
  rewrite point_loop_rows. reflexivity.
Qed.

(** X3: the point form returns [n+1] posteriors, the prior first, and
    [n] rows.  Row [k] (from 0) carries the number [k+1], the two input
    probabilities of item [k] in per cent, posterior [k] as its old and
    posterior [k+1] as its new value, their difference as the change,
    and the comment chosen from the new value; posterior [k+1] is the
    update formula applied to item [k] and posterior [k]. *)
Theorem point_table_follows_the_trace
        (prior : Qc) (bevis_data : list (Qc * Qc)) :
  exists posteriors rows,
    do_exact_bayes_calculation_points prior bevis_data
    = Ok (posteriors, rows)
    /\ List.length posteriors = S (List.length bevis_data)
    /\ List.length rows = List.length bevis_data
    /\ nth_error posteriors 0 = Some prior
    /\ forall k r,
        nth_error rows k = Some r ->
        exists pba pbna old new,
          nth_error bevis_data k = Some (pba, pbna)
          /\ nth_error posteriors k = Some old
          /\ nth_error posteriors (S k) = Some new
          /\ posterior_update pba pbna old = Ok new
          /\ r = mk_row (Bevis (S k)) (pba * lit 100 1) (pbna * lit 100 1)
                        (old * lit 100 1) (new * lit 100 1)
                        ((new - old) * lit 100 1)
                        (step_kommentar (new * lit 100 1)).
Proof.
  do 2 eexists. split; [apply points_table |].
  split; [apply bayes_trace_length |].
  split; [apply table_rows_length |].
  split; [reflexivity |].
  intros k r Hk.
  destruct (table_rows_nth _ _ _ _ _ _ _ Hk) as (a & b & old & Hp & Ho & Hn & ->).
  exists a, b, old, (bayes a b old).
  repeat split; try assumption. apply posterior_update_bayes.
Qed.

Lemma point_table_follows_the_trace_witness :
  exists pba pbna old new,
    nth_error [(lit 4 5, lit 1 20); (lit 3 5, lit 1 5)] 1 = Some (pba, pbna)
    /\ posterior_update pba pbna old = Ok new
    /\ old = bayes (lit 4 5) (lit 1 20) (lit 1 4).
Proof.
  destruct (point_table_follows_the_trace
              (lit 1 4) [(lit 4 5, lit 1 20); (lit 3 5, lit 1 5)])
    as (posts & rows & Hrun & _ & _ & _ & Hrows).
  rewrite points_table in Hrun. injection Hrun as <- <-.
  destruct (Hrows 1%nat _ eq_refl)
    as (pba & pbna & old & new & Hp & Ho & _ & Hu & _).
  exists pba, pbna, old, new. repeat split; try assumption.
  cbn in Ho. now injection Ho as <-.
Defined.

Lemma motbevis_point_loop_rows (negative_bevis_data : list (Qc * Qc)) :
  forall st,
    for_each motbevis_point_body negative_bevis_data st
    = Ok (mk_motbevis_state
            (bayes_fold negative_bevis_data (mb_current_post st))
            (mb_row_list_final st
               ++ table_rows Motbevis motbevis_kommentar
                             (mb_i_beviscount st + 1) negative_bevis_data
                             (mb_current_post st))
            (mb_posterior_list st
               ++ bayes_steps negative_bevis_data (mb_current_post st))
            (mb_i_beviscount st + List.length negative_bevis_data)).
Proof.
  induction negative_bevis_data as [|[nbga nbgna] rest IH];
    intros [cur rows posts n].
  - simpl. now rewrite !app_nil_r, Nat.add_0_r.
  - cbn [for_each]. rewrite motbevis_point_body_ok. cbn [bind]. cbv zeta.
    rewrite IH.
    cbn [mb_row_list_final mb_posterior_list mb_current_post
         mb_i_beviscount bayes_steps bayes_fold fold_left List.length
         table_rows].
    rewrite <- !app_assoc. cbn [app]. do 2 f_equal. lia.
Qed.

Lemma exakt_points_table (prior : Qc) (bevis_data : list (Qc * Qc))
      (nb : Qc * Qc) (rest : list (Qc * Qc)) :
  berakna_bayes_exakt prior (ExactValues bevis_data) true (nb :: rest)
  = Ok (mk_exakt_page
          (PointResult
             (bayes_trace (bevis_data ++ nb :: rest) prior)
             (table_rows Bevis step_kommentar 1 bevis_data prior
                ++ table_rows Motbevis motbevis_kommentar
                              (List.length bevis_data + 1) (nb :: rest)
                              (bayes_fold bevis_data prior)))
          (Some (bayes_fold (bevis_data ++ nb :: rest) prior * lit 100 1))).
Proof.
  unfold berakna_bayes_exakt. rewrite points_table. cbn [bind].
  cbn [List.length Nat.ltb Nat.leb andb].
  destruct (bayes_trace_snoc bevis_data prior) as (init & Hinit).
  unfold motbevis_points. rewrite Hinit at 1. rewrite last_item_app.
  cbn [bind]. rewrite motbevis_point_loop_rows.
  cbn [bind mb_posterior_list mb_row_list_final mb_current_post
       mb_i_beviscount].
  rewrite table_rows_length.
  assert (Hlast : last_item (bayes_trace bevis_data prior
                               ++ bayes_steps (nb :: rest)
                                              (bayes_fold bevis_data prior))
                  = Ok (bayes_fold (bevis_data ++ nb :: rest) prior)).
  { rewrite Hinit, <- app_assoc. cbn [app].
    rewrite last_item_app_cons, bayes_steps_last, bayes_fold_app.
    reflexivity. }
  rewrite Hlast. cbn [bind]. unfold bayes_trace.
  rewrite bayes_steps_app. reflexivity.
Qed.

(** X4: with counter-evidence in the point form, the table is the table
    of the main evidence followed by one row per counter-evidence pair.
    Counter-evidence row [k] (from 0) is labelled "Motbevis n+k+1", where
    [n] is the number of main evidence items: the numbering continues
    the main table's and does not restart at 1.  Its old and new values
    are posteriors [n+k] and [n+k+1], and its comment comes from the
    four-tier set. *)
Theorem motbevis_rows_continue_the_numbering
        (prior : Qc) (bevis_data : list (Qc * Qc))
        (nb : Qc * Qc) (rest : list (Qc * Qc)) :
  exists posteriors main_rows motbevis_rows final,
    do_exact_bayes_calculation_points prior bevis_data
    = Ok (bayes_trace bevis_data prior, main_rows)
    /\ berakna_bayes_exakt prior (ExactValues bevis_data) true (nb :: rest)
       = Ok (mk_exakt_page (PointResult posteriors
                                        (main_rows ++ motbevis_rows))
                           (Some final))
    /\ List.length motbevis_rows = S (List.length rest)
    /\ List.length posteriors
       = (List.length bevis_data + List.length rest + 2)%nat
    /\ forall k r,
        nth_error motbevis_rows k = Some r ->
        exists nbga nbgna old new,
          nth_error (nb :: rest) k = Some (nbga, nbgna)
          /\ nth_error posteriors (List.length bevis_data + k) = Some old
          /\ nth_error posteriors (List.length bevis_data + S k) = Some new
          /\ posterior_update nbga nbgna old = Ok new
          /\ r = mk_row (Motbevis (List.length bevis_data + S k))
                        (nbga * lit 100 1) (nbgna * lit 100 1)
                        (old * lit 100 1) (new * lit 100 1)
                        ((new - old) * lit 100 1)
                        (motbevis_kommentar (new * lit 100 1)).
Proof.
  do 4 eexists. split; [apply points_table |].
  split; [apply exakt_points_table |].
  split; [apply table_rows_length |].
  split.
  { rewrite bayes_trace_length, length_app. simpl. lia. }
  intros k r Hk.
  destruct (table_rows_nth _ _ _ _ _ _ _ Hk) as (a & b & old & Hp & Ho & Hn & ->).
  exists a, b, old, (bayes a b old).
  assert (Hshift : forall j,
             nth_error (bayes_trace (bevis_data ++ nb :: rest) prior)
                       (List.length bevis_data + j)
             = nth_error (bayes_trace (nb :: rest)
                                      (bayes_fold bevis_data prior)) j).
  { intro j. destruct (bayes_trace_snoc bevis_data prior) as (init & Hinit).
    assert (Hlen : List.length init = List.length bevis_data).
    { apply (f_equal (@List.length Qc)) in Hinit.
      rewrite bayes_trace_length, length_app in Hinit. simpl in Hinit. lia. }
    assert (Hsplit : bayes_trace (bevis_data ++ nb :: rest) prior
                     = init ++ bayes_trace (nb :: rest)
                                           (bayes_fold bevis_data prior)).
    { unfold bayes_trace at 1. rewrite bayes_steps_app.
      change (prior :: bayes_steps bevis_data prior ++ ?l)
        with (bayes_trace bevis_data prior ++ l).
      rewrite Hinit, <- app_assoc. reflexivity. }
    rewrite Hsplit, <- Hlen, nth_error_app2 by lia.
    f_equal. lia. }
  repeat split.
  - exact Hp.
  - rewrite Hshift. exact Ho.
  - rewrite Hshift. exact Hn.
  - apply posterior_update_bayes.
  - do 2 f_equal. lia.
Qed.

Lemma motbevis_rows_continue_the_numbering_witness :
  exists r, row_bevis r = Motbevis 3.
Proof.
  destruct (motbevis_rows_continue_the_numbering
              (lit 1 4) [(lit 4 5, lit 1 20); (lit 3 5, lit 1 5)]
              (lit 3 10, lit 7 10) [])
    as (posts & main_rows & mot_rows & final & _ & _ & Hlen & _ & Hrows).
  destruct mot_rows as [|r0 others]; [discriminate Hlen |].
  destruct (Hrows 0%nat r0 eq_refl)
    as (nbga & nbgna & old & new & _ & _ & _ & _ & Hr).
  exists r0. rewrite Hr. reflexivity.
Defined.

(** X5: in the point form, applying counter-evidence after the evidence
    gives the same list of posteriors and the same stored final
    percentage as running the calculation without counter-evidence on
    the evidence list with the counter-evidence pairs appended; only the
    rows' labels and comments differ. *)
Theorem motbevis_is_evidence_appended
        (prior : Qc) (bevis_data negative_bevis_data : list (Qc * Qc)) :
  exists posteriors rows rows' final,
    berakna_bayes_exakt prior (ExactValues bevis_data) true
                        negative_bevis_data
    = Ok (mk_exakt_page (PointResult posteriors rows) final)
    /\ berakna_bayes_exakt prior
                           (ExactValues (bevis_data ++ negative_bevis_data))
                           false []
       = Ok (mk_exakt_page (PointResult posteriors rows') final)
    /\ List.length rows = List.length rows'.
Proof.
  destruct (exakt_points_result prior bevis_data true negative_bevis_data)
    as (rows & Hlen & Hrun).
  destruct (exakt_points_result prior (bevis_data ++ negative_bevis_data)
                                false [])
    as (rows' & Hlen' & Hrun').
  cbv zeta in *. cbn [applied_motbevis] in *.
  rewrite app_nil_r in Hrun', Hlen'.
  do 4 eexists. split; [exact Hrun |]. split; [exact Hrun' |].
  now rewrite Hlen, Hlen'.
Qed.

(** ** The direction of an update *)





(** ** The star network on probabilities *)

Lemma product_if_s_scale (l : list (Qc * Qc)) :
  forall c, fold_left (fun acc '(pb_s, pb_ns) => acc * pb_s) l c
            = c * product_if_s l.
Proof.
  unfold product_if_s.
  induction l as [|[a b] l IH]; intro c; cbn [fold_left].
  - ring.
  - rewrite (IH (c * a)), (IH (1 * a)). ring.
Qed.

Lemma product_if_ns_scale (l : list (Qc * Qc)) :
  forall c, fold_left (fun acc '(pb_s, pb_ns) => acc * pb_ns) l c
            = c * product_if_ns l.
Proof.
  unfold product_if_ns.
  induction l as [|[a b] l IH]; intro c; cbn [fold_left].
  - ring.
  - rewrite (IH (c * b)), (IH (1 * b)). ring.
Qed.

Lemma product_if_s_cons (a b : Qc) (l : list (Qc * Qc)) :
  product_if_s ((a, b) :: l) = a * product_if_s l.
Proof.
  unfold product_if_s at 1. cbn [fold_left].
  rewrite product_if_s_scale. ring.
Qed.

Lemma product_if_ns_cons (a b : Qc) (l : list (Qc * Qc)) :
  product_if_ns ((a, b) :: l) = b * product_if_ns l.
Proof.
  unfold product_if_ns at 1. cbn [fold_left].
  rewrite product_if_ns_scale. ring.
Qed.

Lemma product_if_s_nonneg (l : list (Qc * Qc)) :
  Forall probability_pair l -> 0 <= product_if_s l.
Proof.
  induction 1 as [|[a b] l [[Ha _] _] _ IH].
  - qc_order.
  - rewrite product_if_s_cons. now apply Qc_mul_nonneg.
Qed.

Lemma product_if_ns_nonneg (l : list (Qc * Qc)) :
  Forall probability_pair l -> 0 <= product_if_ns l.
Proof.
  induction 1 as [|[a b] l [_ [Hb _]] _ IH].
  - qc_order.
  - rewrite product_if_ns_cons. now apply Qc_mul_nonneg.
Qed.

(** The closed form of the star network, as a value. *)
Lemma bayesian_network_demo_value (p_s_true : Qc) (bevis_bn : list (Qc * Qc)) :
  bayesian_network_demo p_s_true bevis_bn
  = Ok (if Qc_eq_dec (p_s_true * product_if_s bevis_bn
                      + (1 - p_s_true) * product_if_ns bevis_bn) 0
        then 0
        else p_s_true * product_if_s bevis_bn
             / (p_s_true * product_if_s bevis_bn
                + (1 - p_s_true) * product_if_ns bevis_bn)).
Proof. apply bayesian_network_demo_ok. Qed.

(** X9: for a prior and node probabilities in [0,1], the star network
    over any number of nodes returns a posterior in [0,1], and the page
    shows it as a percentage in [0,100] with the verdict of that
    percentage. *)
Theorem star_network_posterior_is_a_probability
        (p_s_true : Qc) (bevis_bn : list (Qc * Qc)) :
  probability p_s_true ->
  Forall probability_pair bevis_bn ->
  exists posterior_bn,
    bayesian_network_demo p_s_true bevis_bn = Ok posterior_bn
    /\ probability posterior_bn
    /\ bayesian_network_bedomning p_s_true bevis_bn
       = Ok (posterior_bn * lit 100 1,
             interpret_probability_in_words (posterior_bn * lit 100 1))
    /\ 0 <= posterior_bn * lit 100 1 <= lit 100 1.
Proof.
  intros Hp Hev.
  pose proof (product_if_s_nonneg _ Hev) as HA.
  pose proof (product_if_ns_nonneg _ Hev) as HB.
  assert (Htop : 0 <= p_s_true * product_if_s bevis_bn)
    by (apply Qc_mul_nonneg; [apply Hp | exact HA]).
  assert (Hrest : 0 <= (1 - p_s_true) * product_if_ns bevis_bn)
    by (apply Qc_mul_nonneg; [apply Qc_sub_nonneg, Hp | exact HB]).
  eexists. split; [apply bayesian_network_demo_value |].
  assert (Hv : probability
                 (if Qc_eq_dec (p_s_true * product_if_s bevis_bn
                                + (1 - p_s_true) * product_if_ns bevis_bn) 0
                  then 0
                  else p_s_true * product_if_s bevis_bn
                       / (p_s_true * product_if_s bevis_bn
                          + (1 - p_s_true) * product_if_ns bevis_bn))).
  { destruct (Qc_eq_dec _ 0) as [E | E].
    - apply probability_zero.
    - apply Qc_share_in_unit; assumption. }
  split; [exact Hv |].
  split.
  - unfold bayesian_network_bedomning.
    rewrite bayesian_network_demo_value. reflexivity.
  - set (v := if Qc_eq_dec _ 0 then 0 else _) in *. clearbody v.
    split; qc_to_q; lra.
Qed.

Lemma star_network_posterior_is_a_probability_witness :
  exists posterior_bn,
    bayesian_network_demo (lit 1 10000)
                          [(lit 4 5, lit 1 100); (lit 3 5, lit 1 5);
                           (lit 9 10, lit 1 50)]
    = Ok posterior_bn
    /\ probability posterior_bn
    /\ bayesian_network_bedomning
         (lit 1 10000)
         [(lit 4 5, lit 1 100); (lit 3 5, lit 1 5); (lit 9 10, lit 1 50)]
       = Ok (posterior_bn * lit 100 1,
             interpret_probability_in_words (posterior_bn * lit 100 1))
    /\ 0 <= posterior_bn * lit 100 1 <= lit 100 1.
Proof.
  apply star_network_posterior_is_a_probability.
  - split; qc_order.
  - repeat constructor; qc_order.
Defined.

(** ** Monte Carlo samples *)

Lemma between_probabilities (a b u : Qc) :
  probability a -> probability b -> probability u ->
  probability (a + (b - a) * u).
Proof.
  intros Ha Hb Hu. split; qc_to_q.
  - assert (0 <= this a * (1 - this u))%Q
      by (apply Qmult_le_0_compat; lra).
    assert (0 <= this b * this u)%Q by (apply Qmult_le_0_compat; lra).
    lra.
  - assert (0 <= (1 - this a) * (1 - this u))%Q
      by (apply Qmult_le_0_compat; lra).
    assert (0 <= (1 - this b) * this u)%Q
      by (apply Qmult_le_0_compat; lra).
    lra.
Qed.

Lemma draws_probability (rng : Type) (random : rng -> Qc * rng)
      (bevis_data : list (Qc * Qc * Qc * Qc)) :
  (forall g, probability (fst (random g))) ->
  Forall probability_item bevis_data ->
  forall g, Forall probability_pair (fst (draws rng random bevis_data g)).
Proof.
  intros Hrandom.
  induction 1 as [|[[[mina maxa] minna] maxna] rest (H1 & H2 & H3 & H4) _ IH];
    intro g.
  - constructor.
  - cbn [draws]. unfold uniform.
    pose proof (Hrandom g) as Hu1.
    destruct (random g) as [u1 g1]. cbn [fst] in Hu1.
    pose proof (Hrandom g1) as Hu2.
    destruct (random g1) as [u2 g2]. cbn [fst] in Hu2.
    specialize (IH g2). destruct (draws rng random rest g2) as [pairs g3].
    cbn [fst] in *. constructor; [| exact IH].
    split; apply between_probabilities; assumption.
Qed.

(** X11: when the random source returns numbers in [0,1] and the prior,
    the interval endpoints and the counter-evidence pairs are in [0,1],
    the Monte Carlo handler collects 1000 samples and each of them is a
    percentage between 0 and 100; the endpoints need not be ordered. *)
Theorem monte_carlo_samples_are_percentages
        (rng : Type) (random : rng -> Qc * rng)
        (prior : Qc) (bevis_data : list (Qc * Qc * Qc * Qc))
        (enable_negative_evidence : bool)
        (negative_bevis_data : list (Qc * Qc)) (g : rng) :
  (forall g, probability (fst (random g))) ->
  probability prior ->
  Forall probability_item bevis_data ->
  Forall probability_pair negative_bevis_data ->
  exists results g',
    monte_carlo_simulering rng random prior (UseIntervals bevis_data)
                           enable_negative_evidence negative_bevis_data g
    = Ok (Shown results, g')
    /\ List.length results = 1000%nat
    /\ Forall (fun sample => 0 <= sample <= lit 100 1) results.
Proof.
  intros Hrandom Hp Hev Hneg.
  apply monte_carlo_invariant. intro g0. unfold trial_sample.
  assert (Hv : probability
                 (bayes_fold
                    (fst (draws rng random bevis_data g0)
                       ++ applied_motbevis enable_negative_evidence
                                           negative_bevis_data) prior)).
  { apply bayes_fold_probability; [| exact Hp].
    apply Forall_app. split; [now apply draws_probability |].
    destruct enable_negative_evidence; [exact Hneg | constructor]. }
  set (v := bayes_fold _ prior) in *. clearbody v.
  split; qc_to_q; lra.
Qed.

Lemma monte_carlo_samples_are_percentages_witness :
  exists results g',
    monte_carlo_simulering nat (fun n => (lit 1 3, S n)) (lit 1 100)
                           (UseIntervals
                              [(lit 9 10, lit 1 2, lit 1 1000, lit 1 10)])
                           true [(lit 3 10, lit 7 10)] 0%nat
    = Ok (Shown results, g')
    /\ List.length results = 1000%nat
    /\ Forall (fun sample => 0 <= sample <= lit 100 1) results.
Proof.
  apply (monte_carlo_samples_are_percentages nat (fun n => (lit 1 3, S n))).
  - intro g. split; qc_order.
  - split; qc_order.
  - repeat constructor; qc_order.
  - repeat constructor; qc_order.
Defined.

(** ** Degenerate intervals *)

Lemma median_pair_degenerate (bevis_data : list (Qc * Qc * Qc * Qc)) :
  Forall degenerate bevis_data ->
  map median_pair bevis_data = map min_pair bevis_data.
Proof.
  induction 1 as [|[[[mina maxa] minna] maxna] rest [<- <-] _ IH].
  - reflexivity.
  - cbn [map median_pair min_pair]. rewrite IH.
    assert (Hmean : forall a, (a + a) / lit 2 1 = a).
    { intro a. replace (a + a) with (a * lit 2 1).
      - field. apply two_nonzero.
      - replace (lit 2 1) with (1 + 1) by (apply Qc_is_canon; reflexivity).
        ring. }
    now rewrite !Hmean.
Qed.

(** X12: when every interval is a single point, the min list and the
    median list of the interval form are both the list of posteriors
    that the point form returns for those values. *)
Theorem degenerate_intervals_reproduce_the_point_form
        (prior : Qc) (bevis_data : list (Qc * Qc * Qc * Qc)) :
  Forall degenerate bevis_data ->
  exists posteriors rows maxs,
    do_exact_bayes_calculation_points prior (map min_pair bevis_data)
    = Ok (posteriors, rows)
    /\ do_exact_bayes_calculation_intervals prior bevis_data
       = Ok (posteriors, posteriors, maxs).
Proof.
  intro Hdeg. do 3 eexists. split; [apply points_table |].
  rewrite intervals_result, (median_pair_degenerate _ Hdeg). reflexivity.
Qed.

Lemma degenerate_intervals_reproduce_the_point_form_witness :
  exists posteriors rows maxs,
    do_exact_bayes_calculation_points
      (lit 1 100)
      (map min_pair [(lit 95 100, lit 95 100, lit 1 1000, lit 1 1000)])
    = Ok (posteriors, rows)
    /\ do_exact_bayes_calculation_intervals
         (lit 1 100) [(lit 95 100, lit 95 100, lit 1 1000, lit 1 1000)]
       = Ok (posteriors, posteriors, maxs).
Proof.
  apply degenerate_intervals_reproduce_the_point_form.
  repeat constructor.
Defined.

(** ** Certainty *)

(** X13: a posterior of 1 is kept by every update whose P(B|A) is not
    0, whatever P(B|not A) is; an update with P(B|A) = 0 meets a zero
    denominator there and sends the posterior from 1 to 0. *)
Theorem certainty_is_kept_unless_guilt_side_is_zero (pba pbna : Qc) :
  (pba <> 0 -> posterior_update pba pbna 1 = Ok 1)
  /\ posterior_update 0 pbna 1 = Ok 0.
Proof.
  split.
  - intro Ha. rewrite posterior_update_bayes. f_equal.
    assert (Hden : pba * 1 + pbna * (1 - 1) = pba) by ring.
    rewrite bayes_nonzero_denominator by (rewrite Hden; exact Ha).
    rewrite Hden. field. exact Ha.
  - rewrite posterior_update_bayes. f_equal.
    apply bayes_zero_denominator. ring.
Qed.

Lemma certainty_is_kept_unless_guilt_side_is_zero_witness :
  posterior_update (lit 1 1000) (lit 999 1000) 1 = Ok 1.
Proof.
  apply (certainty_is_kept_unless_guilt_side_is_zero (lit 1 1000)).
  intro H. apply (f_equal this) in H. discriminate H.
Defined.

(** ** Dempster's rule on valid masses *)

Lemma one_nonzero : (1 : Qc) <> 0.
Proof. intro H. discriminate H. Qed.

(** X14: a source that puts all its mass on "unknown" (0 on guilt, 0 on
    innocence) is neutral: combined with it, on either side, a source
    with guilt + innocence <= 1 keeps its three masses, the conflict is
    0 and K is 1. *)
Theorem dempster_vacuous_source_is_neutral (g i : Qc) :
  g + i <= 1 ->
  dempster_shafer_demo g i 0 0
  = Ok (Shown (mk_dempster g i (1 - (g + i)) 0 1))
  /\ dempster_shafer_demo 0 0 g i
     = Ok (Shown (mk_dempster g i (1 - (g + i)) 0 1)).
Proof.
  intro Hsum.
  assert (H00 : (0 : Qc) + 0 <= 1) by qc_order.
  assert (Hinv : / (1 : Qc) = 1) by (apply Qc_is_canon; reflexivity).
  split.
  - rewrite dempster_combined;
      [| exact Hsum | exact H00
       | replace (1 - (g * 0 + i * 0)) with 1 by ring; apply one_nonzero].
    cbv zeta.
    replace (g * 0 + i * 0) with 0 by ring.
    replace (1 - 0) with 1 by ring.
    replace ((g * 0 + g * (1 - (0 + 0)) + (1 - (g + i)) * 0) / 1) with g
      by (unfold Qcdiv; rewrite Hinv; ring).
    replace ((i * 0 + i * (1 - (0 + 0)) + (1 - (g + i)) * 0) / 1) with i
      by (unfold Qcdiv; rewrite Hinv; ring).
    reflexivity.
  - rewrite dempster_combined;
      [| exact H00 | exact Hsum
       | replace (1 - (0 * i + 0 * g)) with 1 by ring; apply one_nonzero].
    cbv zeta.
    replace (0 * i + 0 * g) with 0 by ring.
    replace (1 - 0) with 1 by ring.
    replace ((0 * g + 0 * (1 - (g + i)) + (1 - (0 + 0)) * g) / 1) with g
      by (unfold Qcdiv; rewrite Hinv; ring).
    replace ((0 * i + 0 * (1 - (g + i)) + (1 - (0 + 0)) * i) / 1) with i
      by (unfold Qcdiv; rewrite Hinv; ring).
    reflexivity.
Qed.

Lemma dempster_vacuous_source_is_neutral_witness :
  dempster_shafer_demo (lit 1 2) (lit 1 5) 0 0
  = Ok (Shown (mk_dempster (lit 1 2) (lit 1 5)
                           (1 - (lit 1 2 + lit 1 5)) 0 1))
  /\ dempster_shafer_demo 0 0 (lit 1 2) (lit 1 5)
     = Ok (Shown (mk_dempster (lit 1 2) (lit 1 5)
                              (1 - (lit 1 2 + lit 1 5)) 0 1)).
Proof.
  apply dempster_vacuous_source_is_neutral. qc_order.
Defined.

(** The parts of K: what is left of the product of the two sources
    after the conflict is taken out. *)
Lemma dempster_K_parts (gA iA gB iB : Qc) :
  1 - (gA * iB + iA * gB)
  = (gA * gB + gA * (1 - (gB + iB)) + (1 - (gA + iA)) * gB)
    + ((iA * iB + iA * (1 - (gB + iB)) + (1 - (gA + iA)) * iB)
       + (1 - (gA + iA)) * (1 - (gB + iB))).
Proof. ring. Qed.

(** X15: for slider values (each mass in [0,1]) with
    guilt + innocence <= 1 for both sources and K not 0, the combination
    is shown; the conflict is in [0,1), K is in (0,1], and neither the
    combined guilt mass nor the combined innocence mass is negative. *)
Theorem dempster_result_bounds (gA iA gB iB : Qc) :
  0 <= gA -> 0 <= iA -> 0 <= gB -> 0 <= iB ->
  gA + iA <= 1 -> gB + iB <= 1 ->
  1 - (gA * iB + iA * gB) <> 0 ->
  exists d,
    dempster_shafer_demo gA iA gB iB = Ok (Shown d)
    /\ 0 <= m_skyldig d
    /\ 0 <= m_oskuld d
    /\ 0 <= conflict d /\ conflict d < 1
    /\ 0 < K d /\ K d <= 1.
Proof.
  intros HgA HiA HgB HiB HA HB HK.
  pose proof (Qc_sub_nonneg _ _ HA) as HuA.
  pose proof (Qc_sub_nonneg _ _ HB) as HuB.
  set (uA := 1 - (gA + iA)) in *. set (uB := 1 - (gB + iB)) in *.
  set (ng := gA * gB + gA * uB + uA * gB).
  set (ni := iA * iB + iA * uB + uA * iB).
  assert (Hng : 0 <= ng)
    by (unfold ng; repeat apply Qc_add_nonneg; apply Qc_mul_nonneg;
        assumption).
  assert (Hni : 0 <= ni)
    by (unfold ni; repeat apply Qc_add_nonneg; apply Qc_mul_nonneg;
        assumption).
  assert (Huu : 0 <= uA * uB) by (apply Qc_mul_nonneg; assumption).
  assert (Hc : 0 <= gA * iB + iA * gB)
    by (apply Qc_add_nonneg; apply Qc_mul_nonneg; assumption).
  assert (HKparts : 1 - (gA * iB + iA * gB) = ng + (ni + uA * uB))
    by apply dempster_K_parts.
  assert (HKpos : 0 < 1 - (gA * iB + iA * gB)).
  { apply Qc_pos_of_nonneg_ne; [| exact HK]. rewrite HKparts.
    apply Qc_add_nonneg; [exact Hng |].
    apply Qc_add_nonneg; [exact Hni | exact Huu]. }
  eexists. split; [apply dempster_combined; assumption |].
  cbv zeta. cbn [m_skyldig m_oskuld m_okand conflict K].
  fold uA uB ng ni.
  assert (Hg : probability (ng / (1 - (gA * iB + iA * gB)))).
  { rewrite HKparts. apply Qc_share_in_unit; try assumption.
    - now apply Qc_add_nonneg.
    - rewrite <- HKparts. exact HK. }
  assert (Hi : probability (ni / (1 - (gA * iB + iA * gB)))).
  { replace (1 - (gA * iB + iA * gB)) with (ni + (ng + uA * uB))
      by (rewrite HKparts; ring).
    apply Qc_share_in_unit; try assumption.
    - now apply Qc_add_nonneg.
    - replace (ni + (ng + uA * uB)) with (1 - (gA * iB + iA * gB))
        by (rewrite HKparts; ring).
      exact HK. }
  split; [apply Hg |]. split; [apply Hi |].
  split; [exact Hc |].
  split; [| split; [exact HKpos |]].
  - clear - HKpos. set (c := gA * iB + iA * gB) in *. clearbody c.
    qc_to_q. lra.
  - clear - Hc. set (c := gA * iB + iA * gB) in *. clearbody c.
    qc_to_q. lra.
Qed.

Lemma dempster_result_bounds_witness :
  exists d,
    dempster_shafer_demo (lit 1 2) (lit 1 5) (lit 2 5) (lit 3 10)
    = Ok (Shown d)
    /\ 0 <= m_skyldig d
    /\ 0 <= m_oskuld d
    /\ 0 <= conflict d /\ conflict d < 1
    /\ 0 < K d /\ K d <= 1.
Proof.
  apply dempster_result_bounds; qc_order.
Defined.

Lemma total_conflict_in_Q (a b c d : Q) :
  (0 <= a -> 0 <= b -> 0 <= c -> 0 <= d ->
   a + b <= 1 -> c + d <= 1 ->
   a * d + b * c == 1 ->
   (a == 1 /\ b == 0 /\ c == 0 /\ d == 1)
   \/ (a == 0 /\ b == 1 /\ c == 1 /\ d == 0))%Q.
Proof.
  intros Ha Hb Hc Hd Hab Hcd Hconf.
  assert (H1 : (0 <= a * (1 - d))%Q) by (apply Qmult_le_0_compat; lra).
  assert (H2 : (0 <= b * (1 - c))%Q) by (apply Qmult_le_0_compat; lra).
  assert (H3 : (0 <= d * (1 - a))%Q) by (apply Qmult_le_0_compat; lra).
  assert (H4 : (0 <= c * (1 - b))%Q) by (apply Qmult_le_0_compat; lra).
  assert (E1 : (a * (1 - d) == 0)%Q) by lra.
  assert (E2 : (b * (1 - c) == 0)%Q) by lra.
  assert (E3 : (d * (1 - a) == 0)%Q) by lra.
  assert (E4 : (c * (1 - b) == 0)%Q) by lra.
  assert (Sab : (a + b == 1)%Q) by lra.
  assert (Scd : (c + d == 1)%Q) by lra.
  destruct (Qmult_integral _ _ E1) as [Za | Zd].
  - right. destruct (Qmult_integral _ _ E2) as [Zb | Zc]; [lra |].
    repeat split; lra.
  - left. destruct (Qmult_integral _ _ E3) as [Zd' | Za]; [lra |].
    repeat split; lra.
Qed.

(** X16: for slider values with guilt + innocence <= 1 on both sides,
    the combination stops with "Total konflikt" exactly when each
    source is certain and they contradict each other: one puts mass 1 on
    guilt and the other mass 1 on innocence. *)
Theorem dempster_total_conflict_exactly_when_certain_and_opposed
        (gA iA gB iB : Qc) :
  0 <= gA -> 0 <= iA -> 0 <= gB -> 0 <= iB ->
  gA + iA <= 1 -> gB + iB <= 1 ->
  (dempster_shafer_demo gA iA gB iB = Ok (Error TotalKonflikt)
   <-> (gA = 1 /\ iA = 0 /\ gB = 0 /\ iB = 1)
       \/ (gA = 0 /\ iA = 1 /\ gB = 1 /\ iB = 0)).
Proof.
  intros HgA HiA HgB HiB HA HB. split.
  - intro Hrun.
    destruct (Qc_eq_dec (1 - (gA * iB + iA * gB)) 0) as [HK | HK].
    + clear Hrun.
      assert (Hq : (this gA * this iB + this iA * this gB == 1)%Q)
        by (qc_to_q; lra).
      assert (HA' : (this gA + this iA <= 1)%Q) by (qc_to_q; lra).
      assert (HB' : (this gB + this iB <= 1)%Q) by (qc_to_q; lra).
      destruct (total_conflict_in_Q (this gA) (this iA) (this gB) (this iB)
                                    HgA HiA HgB HiB HA' HB' Hq)
        as [(E1 & E2 & E3 & E4) | (E1 & E2 & E3 & E4)];
        [left | right]; repeat split; apply Qc_is_canon; assumption.
    + rewrite dempster_combined in Hrun by assumption. discriminate Hrun.
  - intros [(-> & -> & -> & ->) | (-> & -> & -> & ->)];
      apply dempster_total_conflict; try assumption; ring.
Qed.

Lemma dempster_total_conflict_exactly_when_certain_and_opposed_witness :
  dempster_shafer_demo 0 1 1 0 = Ok (Error TotalKonflikt)
  <-> (0 = 1 /\ 1 = 0 /\ 1 = 0 /\ 0 = 1) \/ (0 = 0 /\ 1 = 1 /\ 1 = 1 /\ 0 = 0).
Proof.
  apply (dempster_total_conflict_exactly_when_certain_and_opposed 0 1 1 0);
    qc_order.
Defined.

(** ** The verbal scales *)

Lemma ge_false (a b : Qc) : ge a b = false <-> a < b.
Proof.
  unfold ge. rewrite <- not_true_iff_false, Qle_bool_iff. split; intro H.
  - apply Qcnot_le_lt. exact H.
  - apply Qclt_not_le. exact H.
Qed.

(** Decide every threshold test in the goal, keeping what each outcome
    says about the percentage. *)
Ltac split_tiers :=
  repeat match goal with
         | |- context [ge ?x ?t] =>
             let E := fresh "E" in
             destruct (ge x t) eqn:E;
             [apply ge_true in E | apply ge_false in E]
         end.

Ltac tiers_clash := exfalso; qc_to_q; lra.

(** X17: [interpret_probability_in_words] is monotone: a larger
    percentage never gets a verdict that stands later in the chain of
    tests than the verdict of a smaller one. *)
Theorem interpret_probability_in_words_monotone (pct pct' : Qc) :
  pct <= pct' ->
  (bedomning_rank (interpret_probability_in_words pct)
   <= bedomning_rank (interpret_probability_in_words pct'))%nat.
Proof.
  intro Hle. unfold interpret_probability_in_words.
  split_tiers; cbn [bedomning_rank]; try lia; tiers_clash.
Qed.

Lemma interpret_probability_in_words_monotone_witness :
  (bedomning_rank (interpret_probability_in_words (lit 1 2))
   <= bedomning_rank (interpret_probability_in_words (lit 95000 1049)))%nat.
Proof.
  apply interpret_probability_in_words_monotone. qc_order.
Defined.

(** X18: the four comments of the counter-evidence rows are a
    coarsening of the eight comments of the main rows: two percentages
    that get the same main-row comment get the same counter-evidence
    comment. *)
Theorem motbevis_kommentar_coarsens_step_kommentar (pct pct' : Qc) :
  step_kommentar pct = step_kommentar pct' ->
  motbevis_kommentar pct = motbevis_kommentar pct'.
Proof.
  unfold step_kommentar, motbevis_kommentar.
  split_tiers; intro H; try reflexivity; try discriminate H; tiers_clash.
Qed.

Lemma motbevis_kommentar_coarsens_step_kommentar_witness :
  motbevis_kommentar (lit 61 1) = motbevis_kommentar (lit 75 1).
Proof.
  apply motbevis_kommentar_coarsens_step_kommentar.
  vm_compute. reflexivity.
Defined.

(** ** [format_auto_decimals] *)

Local Open Scope string_scope.

Lemma rstrip_copies (c : ascii) (n : nat) : rstrip c (copies n c) = "".
Proof.
  induction n as [|n IH]; [reflexivity |].
  cbn [copies rstrip]. rewrite IH, Ascii.eqb_refl. reflexivity.
Qed.

Lemma rstrip_app_copies (c : ascii) (s : string) (n : nat) :
  rstrip c (s ++ copies n c) = rstrip c s.
Proof.
  induction s as [|a s IH].
  - apply rstrip_copies.
  - cbn [String.append rstrip]. rewrite IH. reflexivity.
Qed.

Lemma rstrip_keeps (c a : ascii) (s : string) :
  last_char s = Some a -> a <> c -> rstrip c s = s.
Proof.
  intros Hlast Hne. induction s as [|b s IH]; [reflexivity |].
  destruct s as [|b' s'].
  - cbn in Hlast. injection Hlast as ->.
    cbn. apply Ascii.eqb_neq in Hne. now rewrite Hne.
  - cbn [rstrip]. cbn [rstrip] in IH. rewrite IH by exact Hlast.
    reflexivity.
Qed.

Lemma rstrip_last (c : ascii) (s : string) :
  last_char (rstrip c s) <> Some c.
Proof.
  induction s as [|a s IH]; [discriminate |].
  cbn [rstrip]. destruct (rstrip c s) as [|k kept].
  - destruct (Ascii.eqb a c) eqn:E; [discriminate |].
    cbn. intros [= ->]. now rewrite Ascii.eqb_refl in E.
  - exact IH.
Qed.

Lemma last_char_app (s t : string) (a : ascii) :
  last_char (s ++ String a t) = last_char (String a t).
Proof.
  induction s as [|b s IH]; [reflexivity |].
  cbn [String.append]. rewrite <- IH.
  destruct (s ++ String a t) eqn:E; [| reflexivity].
  destruct s; discriminate E.
Qed.

Lemma last_char_not_blank (s : string) (a : ascii) :
  last_char s = Some a -> a <> "-"%char ->
  (s =? "") || (s =? "-") = false.
Proof.
  intros Hlast Hne. destruct s as [|b [|b' s']].
  - discriminate Hlast.
  - cbn in Hlast. injection Hlast as ->.
    apply orb_false_iff. split; [reflexivity |].
    apply String.eqb_neq. intros [= ->]. now apply Hne.
  - apply orb_false_iff. split; apply String.eqb_neq; discriminate.
Qed.

Lemma append_point (w z : string) : (w ++ ".") ++ z = w ++ String "." z.
Proof.
  induction w as [|a w IH]; [reflexivity |].
  cbn [String.append]. now rewrite IH.
Qed.

(** X19: whatever text the fixed-point formatting produces,
    [format_auto_decimals] never returns the empty text or a lone minus
    sign, and its result never ends in a decimal point. *)
Theorem format_auto_decimals_never_blank
        (format_f : Qc -> nat -> string) (x : Qc) (max_decimals : nat) :
  format_auto_decimals format_f x max_decimals <> ""
  /\ format_auto_decimals format_f x max_decimals <> "-"
  /\ last_char (format_auto_decimals format_f x max_decimals)
     <> Some "."%char.
Proof.
  unfold format_auto_decimals. cbv zeta.
  set (s := rstrip "." (rstrip "0" (format_f x max_decimals))).
  destruct ((s =? "") || (s =? "-")) eqn:E.
  - repeat split; discriminate.
  - apply orb_false_iff in E. destruct E as [E1 E2].
    apply String.eqb_neq in E1, E2.
    repeat split; try assumption. apply rstrip_last.
Qed.

(** X20: when the formatted text is a whole part, a decimal point and
    only zeros after it, the result is the whole part unchanged (so
    "123.0000000000" gives "123" and "100.0000000000" gives "100"),
    provided the whole part ends in a character other than "." and
    "-". *)
Theorem format_auto_decimals_whole_number
        (format_f : Qc -> nat -> string) (x : Qc) (max_decimals : nat)
        (whole : string) (zeros : nat) (c : ascii) :
  format_f x max_decimals = whole ++ "." ++ copies zeros "0" ->
  last_char whole = Some c -> c <> "."%char -> c <> "-"%char ->
  format_auto_decimals format_f x max_decimals = whole.
Proof.
  intros Hs Hlast Hpoint Hminus. unfold format_auto_decimals. cbv zeta.
  rewrite Hs.
  change (whole ++ "." ++ copies zeros "0")
    with (whole ++ String "." (copies zeros "0")).
  rewrite <- append_point.
  rewrite rstrip_app_copies.
  rewrite (rstrip_keeps "0" "." (whole ++ "."));
    [| apply last_char_app | discriminate].
  change (whole ++ ".") with (whole ++ copies 1 ".").
  rewrite rstrip_app_copies, (rstrip_keeps "." c whole Hlast Hpoint).
  now rewrite (last_char_not_blank whole c Hlast Hminus).
Qed.

Lemma format_auto_decimals_whole_number_witness :
  format_auto_decimals (fun _ _ => "100.0000000000") (lit 100 1) 10 = "100".
Proof.
  apply (format_auto_decimals_whole_number
           (fun _ _ => "100.0000000000") (lit 100 1) 10 "100" 10 "0"%char).
  - reflexivity.
  - reflexivity.
  - discriminate.
  - discriminate.
Defined.

(** X21: when the formatted text ends in a run of zeros after a
    character other than "0", "." and "-", the result is the text
    without that run: "0.0123000000" gives "0.0123".  The rule does not
    look for a decimal point, so a text without one loses the zeros of
    its whole part: "100" gives "1". *)
Theorem format_auto_decimals_drops_trailing_zeros
        (format_f : Qc -> nat -> string) (x : Qc) (max_decimals : nat)
        (kept : string) (zeros : nat) (c : ascii) :
  format_f x max_decimals = kept ++ copies zeros "0" ->
  last_char kept = Some c ->
  c <> "0"%char -> c <> "."%char -> c <> "-"%char ->
  format_auto_decimals format_f x max_decimals = kept.
Proof.
  intros Hs Hlast Hzero Hpoint Hminus.
  unfold format_auto_decimals. cbv zeta.
  rewrite Hs, rstrip_app_copies.
  rewrite (rstrip_keeps "0" c kept Hlast Hzero).
  rewrite (rstrip_keeps "." c kept Hlast Hpoint).
  now rewrite (last_char_not_blank kept c Hlast Hminus).
Qed.

Lemma format_auto_decimals_drops_trailing_zeros_witness :
  format_auto_decimals (fun _ _ => "0.0123000000") (lit 123 10000) 10
  = "0.0123"
  /\ format_auto_decimals (fun _ _ => "100") (lit 100 1) 0 = "1".
Proof.
  split.
  - apply (format_auto_decimals_drops_trailing_zeros
             (fun _ _ => "0.0123000000") (lit 123 10000) 10
             "0.0123" 6 "3"%char);
      (reflexivity || discriminate).
  - apply (format_auto_decimals_drops_trailing_zeros
             (fun _ _ => "100") (lit 100 1) 0 "1" 2 "1"%char);
      (reflexivity || discriminate).
Defined.

Local Close Scope string_scope.

(** ** Use of the random source *)

Lemma trials_generator (rng : Type) (random : rng -> Qc * rng)
      (prior : Qc) (bevis_data : list (Qc * Qc * Qc * Qc))
      (enable_negative_evidence : bool)
      (negative_bevis_data : list (Qc * Qc)) :
  forall n results g,
  exists results',
    for_range (trial_body rng random prior bevis_data
                          enable_negative_evidence negative_bevis_data)
              n (results, g)
    = Ok (results',
          Nat.iter n (fun g => snd (draws rng random bevis_data g)) g).
Proof.
  induction n as [|n IH]; intros results g.
  - exists results. reflexivity.
  - cbn [for_range]. rewrite trial_body_ok. cbn [bind].
    match goal with
    | |- context [for_range _ n (?r, ?g0)] =>
        destruct (IH r g0) as (results' & ->)
    end.
    exists results'. do 2 f_equal.
    exact (Nat.iter_swap n _ (fun g0 => snd (draws rng random bevis_data g0))
                         g).
Qed.

Lemma draws_count (f : nat -> Qc) (bevis_data : list (Qc * Qc * Qc * Qc)) :
  forall g,
    snd (draws nat (fun n => (f n, S n)) bevis_data g)
    = (g + 2 * List.length bevis_data)%nat.
Proof.
  induction bevis_data as [|[[[mina maxa] minna] maxna] rest IH]; intro g.
  - cbn. lia.
  - cbn [draws uniform]. specialize (IH (S (S g))).
    destruct (draws nat _ rest (S (S g))) as [pairs g3].
    cbn [snd] in *. rewrite IH. cbn [List.length]. lia.
Qed.

(** X23: the Monte Carlo handler asks the random source for exactly two
    numbers per evidence item in each of its 1000 rounds and for none
    for the counter-evidence: with a source that counts its calls, the
    count after the run is 2000 times the number of items more than
    before, whatever the prior and the counter-evidence are. *)
Theorem monte_carlo_draws_two_numbers_per_item
        (f : nat -> Qc) (prior : Qc)
        (bevis_data : list (Qc * Qc * Qc * Qc))
        (enable_negative_evidence : bool)
        (negative_bevis_data : list (Qc * Qc)) (calls : nat) :
  exists results,
    monte_carlo_simulering nat (fun n => (f n, S n)) prior
                           (UseIntervals bevis_data)
                           enable_negative_evidence negative_bevis_data
                           calls
    = Ok (Shown results, (calls + 2000 * List.length bevis_data)%nat).
Proof.
  unfold monte_carlo_simulering.
  destruct (trials_generator nat (fun n => (f n, S n)) prior bevis_data
                             enable_negative_evidence negative_bevis_data
                             n_samples [] calls)
    as (results & ->).
  exists results. cbn [bind].
  assert (Hiter : forall n g,
             Nat.iter n (fun g => snd (draws nat (fun n => (f n, S n))
                                             bevis_data g)) g
             = (g + n * (2 * List.length bevis_data))%nat).
  { induction n as [|n IHn]; intro g.
    - cbn. lia.
    - rewrite Nat.iter_succ, IHn, draws_count. lia. }
  rewrite Hiter. unfold n_samples.
  replace (calls + 1000 * (2 * List.length bevis_data))%nat
    with (calls + 2000 * List.length bevis_data)%nat by lia.
  reflexivity.
Qed.

(** ** What the interval form stores *)

(** X24: in the interval form with counter-evidence, the percentage
    stored as [final_in_pct] is that of the median chain: it is the
    value the point form stores for the mean pairs with the same
    counter-evidence.  Without counter-evidence (checkbox off, or no
    pairs) the interval form stores nothing. *)
Theorem interval_form_stores_the_median_chain
        (prior : Qc) (bevis_data : list (Qc * Qc * Qc * Qc))
        (nb : Qc * Qc) (rest : list (Qc * Qc)) :
  (exists shown shown' final,
      berakna_bayes_exakt prior (UseIntervals bevis_data) true (nb :: rest)
      = Ok (mk_exakt_page shown (Some final))
      /\ berakna_bayes_exakt prior
                             (ExactValues (map median_pair bevis_data))
                             true (nb :: rest)
         = Ok (mk_exakt_page shown' (Some final)))
  /\ (exists shown,
         berakna_bayes_exakt prior (UseIntervals bevis_data) false
                             (nb :: rest)
         = Ok (mk_exakt_page shown None))
  /\ (exists shown,
         berakna_bayes_exakt prior (UseIntervals bevis_data) true []
         = Ok (mk_exakt_page shown None)).
Proof.
  split; [| split].
  - do 3 eexists. split; [apply exakt_intervals_result |].
    rewrite exakt_points_table. reflexivity.
  - eexists. now apply exakt_intervals_plain.
  - eexists. now apply exakt_intervals_plain.
Qed.
